(** * LED matrix timer (ATmega168PB firmware, [main.c])

    A shallow embedding of the firmware: the two interrupt handlers that
    own the shared variables [state] and [enabled], the bit-banged
    74HC595 driver ([shift_out], [show_leds]) and one iteration of the
    endless loop of [main].

    - 8-bit unsigned values are integers in [0, 256); a store into a
      [uint8_t] object is [u8].
    - The shared variables are [volatile]: every occurrence of [state] in
      [main] is a load of its own, and a handler may run before any of
      them.  A world therefore carries the interrupts still to come,
      grouped by the load in front of which they fire.
    - Writes to the shift register port are logged, one entry per
      statement, next to the register value they leave behind; so are the
      calls of [show_leds] with the array they are given, and the waits.
    - The one-time set-up of [main] (pin directions, timer prescaler and
      compare value, interrupt masks) is outside the model; [boot] holds
      the initial values of the shared variables. *)

From Stdlib Require Import ZArith List Lia Bool.
From stdpp Require Import base list.
Import ListNotations.

Local Open Scope Z_scope.

(** ** Eight-bit values *)

(** Conversion to [uint8_t]: reduction modulo 2^8. *)
Definition u8 (z : Z) : Z := z mod 256.

(** [~x] computed in [int] and stored back into a [uint8_t]. *)
Definition not8 (x : Z) : Z := u8 (Z.lnot x).

(** A C condition: any non-zero value is true. *)
Definition truthy (z : Z) : bool := negb (z =? 0).

(** ** Shared variables and interrupt handlers *)

(** [state] and [enabled] are the two volatile globals; [TCNT1] is the
    count register of timer 1, of which only the handler's own write is
    followed. *)
Record Regs : Type := mkRegs { state : Z; enabled : Z; TCNT1 : Z }.

Definition set_state (v : Z) (r : Regs) : Regs :=
  {| state := v; enabled := enabled r; TCNT1 := TCNT1 r |}.
Definition set_enabled (v : Z) (r : Regs) : Regs :=
  {| state := state r; enabled := v; TCNT1 := TCNT1 r |}.
Definition set_TCNT1 (v : Z) (r : Regs) : Regs :=
  {| state := state r; enabled := enabled r; TCNT1 := v |}.

(** [volatile uint8_t state = 255; volatile uint8_t enabled = 0;] and
    [timer_init]'s [TCNT1 = 0]. *)
Definition boot : Regs := {| state := 255; enabled := 0; TCNT1 := 0 |}.

(** [#define BUTTON_PIN PINB7]; the header of the device gives [PINB7] the
    value 7. *)
Definition BUTTON_PIN : Z := 7.

(** The button reads as pressed when bit [BUTTON_PIN] of the input
    register is set. *)
Definition pressed (PINB : Z) : bool :=
  truthy (Z.land PINB (Z.shiftl 1 BUTTON_PIN)).

(** [ISR(PCINT0_vect)]: runs on every change of the button pin; [PINB] is
    the value of the input register it reads. *)
Definition ISR_PCINT0_vect (PINB : Z) (r : Regs) : Regs :=
  if truthy (Z.land PINB (Z.shiftl 1 BUTTON_PIN)) then
    if state r =? 255 then
      set_TCNT1 0 (set_state 0 (set_enabled 1 r))
    else
      set_state 255 (set_enabled 0 r)
  else r.

(** [ISR(TIMER1_COMPA_vect)]: runs on every compare match of timer 1. *)
Definition ISR_TIMER1_COMPA_vect (r : Regs) : Regs :=
  if truthy (enabled r) then
    let r1 := set_state (u8 (state r + 1)) r in
    if state r1 >? 63 then set_enabled 0 r1 else r1
  else r.

(** The two interrupt sources. *)
Inductive Irq : Type :=
| PinChange (PINB : Z)
| TimerCompare.

Definition fire (i : Irq) (r : Regs) : Regs :=
  match i with
  | PinChange PINB => ISR_PCINT0_vect PINB r
  | TimerCompare => ISR_TIMER1_COMPA_vect r
  end.

(** Handlers run to completion, one after the other. *)
Definition run (evs : list Irq) (r : Regs) : Regs :=
  fold_left (fun r i => fire i r) evs r.

(** [running] of the specification is the truth value of [enabled]. *)
Definition running (r : Regs) : bool := truthy (enabled r).

(** The invariant of the shared variables. *)
Definition DisplayInv (r : Regs) : Prop :=
  (state r = 255 -> running r = false) /\
  (running r = true -> 0 <= state r <= 63).

(** ** The shift register port *)

Inductive Line : Type := DATA_PIN | LATCH_PIN | CLOCK_PIN.

(** [#define DATA_PIN PORTC2], [LATCH_PIN PORTC1], [CLOCK_PIN PORTC0]: bit
    numbers 2, 1 and 0 of the port in the header of the device. *)
Definition pin (l : Line) : Z :=
  match l with DATA_PIN => 2 | LATCH_PIN => 1 | CLOCK_PIN => 0 end.

(** What the outside sees of the main loop, in program order. *)
Inductive Obs : Type :=
| Drive (l : Line) (level : bool)   (* one write to the port: a line set or cleared *)
| Delay (ms : Z)                    (* [_delay_ms] *)
| ShowLeds (bytes : list Z).            (* [show_leds] entered with this buffer *)

Record World : Type := mkWorld {
  regs : Regs;                 (* the shared variables *)
  PORTC : Z;                   (* [SHIFT_REG_PORT] *)
  irqs : list (list Irq);      (* interrupts to come, by load of [state] *)
  trace : list Obs             (* oldest first *)
}.

(** State-passing computations over a world. *)
Definition M (A : Type) : Type := World -> A * World.
Declare Scope M_scope.

Definition ret {A} (a : A) : M A := fun w => (a, w).
Definition bind {A B} (m : M A) (f : A -> M B) : M B :=
  fun w => let (a, w1) := m w in f a w1.

Notation "x <- m ;; k" := (bind m (fun x => k))
  (at level 100, m at next level, right associativity) : M_scope.
Notation "m ;;; k" := (bind m (fun _ => k))
  (at level 100, right associativity) : M_scope.
Local Open Scope M_scope.

Definition emit (o : Obs) : M unit := fun w =>
  (tt, {| regs := regs w; PORTC := PORTC w; irqs := irqs w;
          trace := trace w ++ [o] |}).

Definition write_PORTC (v : Z) : M unit := fun w =>
  (tt, {| regs := regs w; PORTC := u8 v; irqs := irqs w; trace := trace w |}).

(** [SHIFT_REG_PORT |= 1 << l;] *)
Definition port_set (l : Line) : M unit := fun w =>
  (write_PORTC (Z.lor (PORTC w) (Z.shiftl 1 (pin l))) ;;;
   emit (Drive l true)) w.

(** [SHIFT_REG_PORT &= ~(1 << l);] *)
Definition port_clear (l : Line) : M unit := fun w =>
  (write_PORTC (Z.land (PORTC w) (Z.lnot (Z.shiftl 1 (pin l)))) ;;;
   emit (Drive l false)) w.

Definition _delay_ms (ms : Z) : M unit := emit (Delay ms).

(** A load of the volatile [state]: the handlers due before it run first
    (none when the list of interrupts to come is used up). *)
Definition read_state : M Z := fun w =>
  let r := run (hd [] (irqs w)) (regs w) in
  (state r, {| regs := r; PORTC := PORTC w; irqs := tl (irqs w);
               trace := trace w |}).

(** [for (uint8_t i = from; ...; i++)] with [n] iterations; no counter of
    the program reaches 255, so the increment never wraps. *)
Fixpoint for_up (n : nat) (from : Z) (body : Z -> M unit) : M unit :=
  match n with
  | O => ret tt
  | S n' => body from ;;; for_up n' (from + 1) body
  end.

(** The same loop when the body updates a local array. *)
Fixpoint for_up_with {A} (n : nat) (from : Z) (body : Z -> A -> M A) (a : A) : M A :=
  match n with
  | O => ret a
  | S n' => a1 <- body from a ;; for_up_with n' (from + 1) body a1
  end.

(** ** The driver *)

(** [bytes[j]] for an index inside the array (outside it the C program
    has no defined behaviour; the model reads 0). *)
Definition byte_at (bytes : list Z) (j : Z) : Z := bytes !!! Z.to_nat j.

(** [shift_out(bytes, size_in_bytes)]: latch low, clock low, then every
    bit of every byte, least significant first, each followed by a clock
    pulse, then latch high.  The array is only read. *)
Definition shift_out (bytes : list Z) (size_in_bytes : Z) : M Z :=
  port_clear LATCH_PIN ;;;
  port_clear CLOCK_PIN ;;;
  for_up (Z.to_nat size_in_bytes) 0 (fun j =>
    for_up 8 0 (fun i =>
      (if truthy (Z.land (byte_at bytes j) (Z.shiftl 1 i))
       then port_set DATA_PIN
       else port_clear DATA_PIN) ;;;
      port_set CLOCK_PIN ;;;
      port_clear CLOCK_PIN)) ;;;
  port_set LATCH_PIN ;;;
  ret 0.

(** [bytes[i] = ~bytes[i];] for an index inside the array. *)
Definition negate_at (i : Z) (bytes : list Z) : list Z :=
  <[Z.to_nat i := not8 (byte_at bytes i)]> bytes.

(** [show_leds(bytes)]: the array behind the pointer is passed in and the
    array as the call leaves it is passed back (the function's own result,
    always 0, is dropped by every caller).  The first line records the
    call in the trace; the loop [for (i = 1; i <= 3; i++)] is written out. *)
Definition show_leds (bytes : list Z) : M (list Z) :=
  emit (ShowLeds bytes) ;;;
  let bytes := negate_at 1 bytes in
  let bytes := negate_at 2 bytes in
  let bytes := negate_at 3 bytes in
  shift_out bytes 4 ;;;
  ret bytes.

(** ** The main loop *)

Definition red_left : list Z := [0x1; 0x3; 0x7; 0xf; 0x8; 0xc; 0xe; 0xf].
Definition red_right : list Z := [0x8; 0xc; 0xe; 0xf; 0x1; 0x3; 0x7; 0xf].

(** [leds[i] = v;] for an index inside the array. *)
Definition store (i : nat) (v : Z) (leds : list Z) : list Z := <[i := u8 v]> leds.

(** The body of [for (uint8_t j = 0; j < 8; j++)] in [main]: one row.
    [state] is loaded twice, once for the row byte and once for the reds. *)
Definition scan_row (actual_row last_red : Z) (j : Z) (leds : list Z) : M (list Z) :=
  s <- read_state ;;
  let leds :=
    if s <? 32 then store 0 (Z.shiftl 1 (7 - j)) leds
    else store 0 (Z.shiftl 1 j) leds in
  s <- read_state ;;
  let leds :=
    if s <? 32 then
      if j =? actual_row then store 1 (Z.shiftl (byte_at red_left last_red) 4) leds
      else if j <? actual_row then store 1 (Z.shiftl (byte_at red_left 3) 4) leds
      else if j >? actual_row then store 1 0x00 leds
      else leds
    else
      if j =? actual_row then store 1 (Z.lor (byte_at red_right last_red) 0xf0) leds
      else if j <? actual_row then store 1 (Z.lor (byte_at red_right 3) 0xf0) leds
      else if j >? actual_row then store 1 0xf0 leds
      else leds in
  let leds := store 2 (Z.lnot (byte_at leds 1)) leds in
  let leds := store 3 0x00 leds in
  show_leds leds.

(** One iteration of [while (1)] in [main]; [leds] is the local array as
    the previous iteration left it. *)
Definition loop_body (leds : list Z) : M (list Z) :=
  s <- read_state ;;
  if s =? 255 then
    let leds := store 0 0xff leds in
    let leds := store 1 0x00 leds in
    let leds := store 2 0x00 leds in
    let leds := store 3 0xff leds in
    show_leds leds
  else
    s <- read_state ;;
    if s >? 63 then
      let leds := store 0 0xff leds in
      let leds := store 1 0xff leds in
      let leds := store 2 0x00 leds in
      let leds := store 3 0x00 leds in
      leds <- show_leds leds ;;
      _delay_ms 500 ;;;
      let leds := store 0 0x00 leds in
      let leds := store 1 0x00 leds in
      let leds := store 2 0x00 leds in
      let leds := store 3 0x00 leds in
      leds <- show_leds leds ;;
      _delay_ms 500 ;;;
      ret leds
    else
      s <- read_state ;;
      let actual_row := u8 (s / 4) in
      let actual_row := if actual_row >? 7 then u8 (actual_row - 8) else actual_row in
      s <- read_state ;;
      let last_red := u8 (s mod 8) in
      for_up_with 8 0 (scan_row actual_row last_red) leds.

(** The first [n] iterations of the loop. *)
Fixpoint main_loop (n : nat) (leds : list Z) : M (list Z) :=
  match n with
  | O => ret leds
  | S n' => leds <- loop_body leds ;; main_loop n' leds
  end.

(** ** Reading a trace *)

(** The buffers [show_leds] was called with. *)
Definition frames (t : list Obs) : list (list Z) :=
  flat_map (fun o => match o with ShowLeds b => [b] | _ => [] end) t.

(** The writes to the port. *)
Definition wire (t : list Obs) : list Obs :=
  List.filter (fun o => match o with Drive _ _ => true | _ => false end) t.

(** Frames and waits, without the port writes. *)
Definition timeline (t : list Obs) : list Obs :=
  List.filter (fun o => match o with Drive _ _ => false | _ => true end) t.

(** What a computation appends to the trace of the world it starts in. *)
Definition emitted {A} (m : M A) (w : World) : list Obs :=
  drop (length (trace w)) (trace (snd (m w))).

(** [n] consecutive integers from [from]: the values a loop counter takes. *)
Fixpoint upto (n : nat) (from : Z) : list Z :=
  match n with
  | O => []
  | S n' => from :: upto n' (from + 1)
  end.

(** Eight bits on the data line, bit 0 first, each with its clock pulse. *)
Definition pulses (bit : Z -> bool) : list Obs :=
  flat_map (fun i => [Drive DATA_PIN (bit i);
                      Drive CLOCK_PIN true; Drive CLOCK_PIN false])
           (upto 8 0).

(** The port writes of [shift_out] over an array. *)
Definition shifted (bytes : list Z) : list Obs :=
  [Drive LATCH_PIN false; Drive CLOCK_PIN false]
  ++ flat_map (fun b => pulses (Z.testbit b)) bytes
  ++ [Drive LATCH_PIN true].

(** The array [show_leds] leaves behind, which is also what it shifts out. *)
Definition sent (bytes : list Z) : list Z :=
  negate_at 3 (negate_at 2 (negate_at 1 bytes)).

(** Everything one call of [show_leds] appends to the trace. *)
Definition shown (bytes : list Z) : list Obs :=
  ShowLeds bytes :: shifted (sent bytes).

(** The array [scan_row] hands to [show_leds] in row [j] when both of its
    loads of [state] give [s]. *)
Definition row_leds (s actual_row last_red j : Z) : list Z :=
  let row := if s <? 32 then Z.shiftl 1 (7 - j) else Z.shiftl 1 j in
  let red :=
    if s <? 32 then
      if j =? actual_row then Z.shiftl (byte_at red_left last_red) 4
      else if j <? actual_row then Z.shiftl (byte_at red_left 3) 4
      else 0x00
    else
      if j =? actual_row then Z.lor (byte_at red_right last_red) 0xf0
      else if j <? actual_row then Z.lor (byte_at red_right 3) 0xf0
      else 0xf0 in
  [u8 row; u8 red; not8 (u8 red); 0].

(** [actual_row] and [last_red] as [main] computes them from a load [s]. *)
Definition actual_row_of (s : Z) : Z :=
  let actual_row := u8 (s / 4) in
  if actual_row >? 7 then u8 (actual_row - 8) else actual_row.
Definition last_red_of (s : Z) : Z := u8 (s mod 8).

(** The eight arrays of one scan when every load of [state] gives [s]. *)
Definition scan_leds (s : Z) : list (list Z) :=
  map (row_leds s (actual_row_of s) (last_red_of s)) (upto 8 0).

(** The local array after [n] rows from row [from] on, when every load of
    [state] gives [s]. *)
Fixpoint leds_after_rows (s actual_row last_red : Z) (n : nat) (from : Z)
    (leds : list Z) : list Z :=
  match n with
  | O => leds
  | S n' => leds_after_rows s actual_row last_red n' (from + 1)
              (sent (row_leds s actual_row last_red from))
  end.

(** The number of loads of [state] in one iteration of the loop, likewise. *)
Definition pass_loads (s : Z) : nat :=
  if s =? 255 then 1 else if s >? 63 then 2 else 20.

(** The local array after one iteration of the loop, likewise. *)
Definition pass_leds (s : Z) (leds : list Z) : list Z :=
  if s =? 255 then sent [0xff; 0x00; 0x00; 0xff]
  else if s >? 63 then sent [0x00; 0x00; 0x00; 0x00]
  else leds_after_rows s (actual_row_of s) (last_red_of s) 8 0 leds.

(** What one iteration of the loop appends to the trace when every load
    of [state] in it gives [s]. *)
Definition pass_events (s : Z) : list Obs :=
  if s =? 255 then shown [0xff; 0x00; 0x00; 0xff]
  else if s >? 63 then
    shown [0xff; 0xff; 0x00; 0x00] ++ [Delay 500]
    ++ shown [0x00; 0x00; 0x00; 0x00] ++ [Delay 500]
  else flat_map shown (scan_leds s).

(** ** Judgements on computations *)

(** [m] returns [a], appends [evs] to the trace and leaves the shared
    variables and the pending interrupts alone. *)
Definition writes {A} (m : M A) (w : World) (a : A) (evs : list Obs) : Prop :=
  exists p, m w = (a, {| regs := regs w; PORTC := p; irqs := irqs w;
                         trace := trace w ++ evs |}).

(** The handlers due before each load to come leave the shared variables
    as they are (none is due, or those that are have no effect). *)
Definition quiet (w : World) : Prop :=
  Forall (fun g => run g (regs w) = regs w) (irqs w).

(** [m] returns [a] after [k] loads of [state], appends [evs] to the
    trace, and ends in a quiet world with the shared variables as they
    were. *)
Definition steady {A} (m : M A) (w : World) (a : A) (k : nat) (evs : list Obs) : Prop :=
  exists w', m w = (a, w') /\ regs w' = regs w /\ quiet w' /\
             irqs w' = drop k (irqs w) /\ trace w' = trace w ++ evs.

(** ** The specification's wording, for comparison *)

(** The line sequence of a transmission as the specification words it:
    latch low, the 32 bits with their clock pulses (row byte as it is,
    colour bytes inverted), latch high. *)
Definition spec_transmit (row red green blue : Z) : list Obs :=
  [Drive LATCH_PIN false]
  ++ pulses (Z.testbit row)
  ++ pulses (fun i => negb (Z.testbit red i))
  ++ pulses (fun i => negb (Z.testbit green i))
  ++ pulses (fun i => negb (Z.testbit blue i))
  ++ [Drive LATCH_PIN true].

(** A mask with a single bit among bits 0 to 7. *)
Definition one_bit (m : Z) : Prop := exists k, 0 <= k < 8 /\ m = 2 ^ k.

(** Bit inclusion between two masks: every bit set in [a] is set in [b]. *)
Definition submask (a b : Z) : bool := Z.land a b =? a.

(** ** Two worlds at counter 31 *)

(** The shared variables after a press and 31 ticks. *)
Definition at_31 : Regs := run (PinChange 128 :: repeat TimerCompare 31) boot.

(** No interrupt to come. *)
Definition calm_at_31 : World :=
  {| regs := at_31; PORTC := 0; irqs := []; trace := [] |}.

(** The timer handler runs before the thirteenth load of [state]. *)
Definition ticked_at_31 : World :=
  {| regs := at_31; PORTC := 0;
     irqs := repeat [] 12 ++ [[TimerCompare]]; trace := [] |}.


(** ** Further definitions: set-up, interrupts, levels on the lines *)

(** [shift_port_init()]: the three pins become outputs, then go low.  The
    direction register [DDRC] is passed in and passed back; the port is
    the one of the world, written by the same statements as in
    [shift_out].  The function's own result, always 0, is dropped by
    [main]. *)
Definition shift_port_init (DDRC : Z) : M Z :=
  let DDRC := u8 (Z.lor DDRC (Z.shiftl 1 (pin DATA_PIN))) in
  let DDRC := u8 (Z.lor DDRC (Z.shiftl 1 (pin LATCH_PIN))) in
  let DDRC := u8 (Z.lor DDRC (Z.shiftl 1 (pin CLOCK_PIN))) in
  port_clear DATA_PIN ;;;
  port_clear LATCH_PIN ;;;
  port_clear CLOCK_PIN ;;;
  ret DDRC.

(** An interrupt other than a change of the button pin to pressed. *)
Definition no_press (i : Irq) : bool :=
  match i with
  | PinChange PINB => negb (pressed PINB)
  | TimerCompare => true
  end.

(** The number of compare matches among some interrupts. *)
Definition ticks_in (evs : list Irq) : Z :=
  Z.of_nat (length (List.filter (fun i => match i with TimerCompare => true | _ => false end) evs)).

(** The three kinds of state of the shared variables: waiting, counting,
    overtime. *)
Definition shape (c e : Z) : Prop :=
  (c = 255 /\ e = 0) \/ (0 <= c <= 63 /\ e = 1) \/ (c = 64 /\ e = 0).

Definition line_eqb (a b : Line) : bool :=
  match a, b with
  | DATA_PIN, DATA_PIN | LATCH_PIN, LATCH_PIN | CLOCK_PIN, CLOCK_PIN => true
  | _, _ => false
  end.

(** The port register after one more entry of the trace. *)
Definition port_after (p : Z) (o : Obs) : Z :=
  match o with
  | Drive l true => u8 (Z.lor p (Z.shiftl 1 (pin l)))
  | Drive l false => u8 (Z.land p (Z.lnot (Z.shiftl 1 (pin l))))
  | _ => p
  end.

(** The level last driven on a line in a trace, if any. *)
Fixpoint last_drive (l : Line) (t : list Obs) : option bool :=
  match t with
  | [] => None
  | o :: t' =>
      match last_drive l t' with
      | Some b => Some b
      | None =>
          match o with
          | Drive l' b => if line_eqb l' l then Some b else None
          | _ => None
          end
      end
  end.

(** [m] returns [a], appends [evs] to the trace, leaves the shared
    variables and the pending interrupts alone, and leaves the port as
    the writes among [evs] make it. *)
Definition drives {A} (m : M A) (w : World) (a : A) (evs : list Obs) : Prop :=
  m w = (a, {| regs := regs w; PORTC := fold_left port_after evs (PORTC w);
               irqs := irqs w; trace := trace w ++ evs |}).

(** The levels of the data line at the rising edges of the clock line,
    from the levels [data] and [clock] the two lines have before the
    trace: what a shift register clocked by the trace takes in. *)
Fixpoint sampled (data clock : bool) (t : list Obs) : list bool :=
  match t with
  | [] => []
  | Drive DATA_PIN b :: t' => sampled b clock t'
  | Drive CLOCK_PIN true :: t' =>
      if clock then sampled data true t' else data :: sampled data true t'
  | Drive CLOCK_PIN false :: t' => sampled data false t'
  | _ :: t' => sampled data clock t'
  end.

(** Eight bits, least significant first, as a byte. *)
Definition byte_of_bits (bits : list bool) : Z :=
  fold_right (fun (b : bool) acc => Z.b2z b + 2 * acc) 0 bits.

(** A stream of bits cut into [n] bytes. *)
Fixpoint bytes_of_bits (n : nat) (bits : list bool) : list Z :=
  match n with
  | O => []
  | S n' => byte_of_bits (firstn 8 bits) :: bytes_of_bits n' (skipn 8 bits)
  end.

(** The number of bits set among bits 0 to 7. *)
Definition popcount8 (x : Z) : Z :=
  Z.of_nat (length (List.filter (Z.testbit x) (upto 8 0))).

(** The sum of a list of integers. *)
Definition total (l : list Z) : Z := fold_right Z.add 0 l.

(** A frame [main] may show: the waiting frame, one of the two overtime
    frames, or a scan frame with one row selected, green the complement
    of red and no blue. *)
Definition frame_ok (f : list Z) : Prop :=
  f = [0xff; 0x00; 0x00; 0xff] \/ f = [0xff; 0xff; 0x00; 0x00] \/
  f = [0x00; 0x00; 0x00; 0x00] \/
  exists row red, one_bit row /\ 0 <= red < 256 /\ f = [row; red; 255 - red; 0].

(** Whatever the interrupts, [m] appends frames that are all as
    [frame_ok] says, their number satisfies [N], and the value returned
    satisfies [Q]. *)
Definition sound {A} (m : M A) (N : nat -> Prop) (Q : A -> Prop) : Prop :=
  forall w, exists evs,
    trace (snd (m w)) = trace w ++ evs /\
    N (length (frames evs)) /\ Forall frame_ok (frames evs) /\ Q (fst (m w)).

(** The shared variables after a press and 63 ticks, and a world in which
    the timer handler runs before the third load of [state]. *)
Definition at_63 : Regs := run (PinChange 128 :: repeat TimerCompare 63) boot.

Definition ticked_at_63 : World :=
  {| regs := at_63; PORTC := 0; irqs := [[]; []; [TimerCompare]]; trace := [] |}.

(** The shared variables after a press, and a world in which the button
    handler runs, pressed, before the second load of [state]. *)
Definition pressed_at_0 : World :=
  {| regs := run [PinChange 128] boot; PORTC := 0;
     irqs := [[]; [PinChange 128]]; trace := [] |}.

(** Whatever the interrupts, [m] performs a number of loads of [state]
    that satisfies [K]; afterwards the shared variables are what the
    handlers due before those loads made them, and the interrupts due
    before later loads are still to come. *)
Definition observes {A} (m : M A) (K : nat -> Prop) : Prop :=
  forall w, exists k,
    K k /\
    regs (snd (m w)) = run (concat (take k (irqs w))) (regs w) /\
    irqs (snd (m w)) = drop k (irqs w).

(** A local array of four bytes. *)
Definition four (leds : list Z) : Prop := length leds = 4%nat.

(** The red byte of the frame that selects the row [row], in a scan. *)
Definition red_of_row (fs : list (list Z)) (row : Z) : Z :=
  match List.filter (fun f => byte_at f 0 =? row) fs with
  | f :: _ => byte_at f 1
  | [] => 0
  end.

(** * Properties *)

(** ** Bits *)

Lemma truthy_true (z : Z) : truthy z = true <-> z <> 0.
Proof. unfold truthy. destruct (Z.eqb_spec z 0); simpl; split; congruence. Qed.

Lemma truthy_false (z : Z) : truthy z = false <-> z = 0.
Proof. unfold truthy. destruct (Z.eqb_spec z 0); simpl; split; congruence. Qed.

(** The C test [b & (1 << i)] reads bit [i] of [b]. *)
Lemma land_bit_testbit (b i : Z) :
  0 <= i -> truthy (Z.land b (Z.shiftl 1 i)) = Z.testbit b i.
Proof.
  intros Hi. rewrite Z.shiftl_1_l.
  destruct (Z.testbit b i) eqn:Hb.
  - apply truthy_true. intros H0.
    assert (Hbit : Z.testbit (Z.land b (2 ^ i)) i = true).
    { rewrite Z.land_spec, Hb, Z.pow2_bits_true by lia. reflexivity. }
    rewrite H0, Z.bits_0 in Hbit. discriminate.
  - apply truthy_false. apply Z.bits_inj'. intros k Hk.
    rewrite Z.land_spec, Z.bits_0, Z.pow2_bits_eqb by lia.
    destruct (Z.eqb_spec i k) as [->|]; [rewrite Hb|]; auto using andb_false_r.
Qed.

Lemma pressed_testbit (PINB : Z) : pressed PINB = Z.testbit PINB 7.
Proof. unfold pressed, BUTTON_PIN. apply land_bit_testbit. lia. Qed.

Lemma u8_small (z : Z) : 0 <= z < 256 -> u8 z = z.
Proof. intros H. unfold u8. apply Z.mod_small. lia. Qed.

Lemma u8_range (z : Z) : 0 <= u8 z < 256.
Proof. unfold u8. apply Z.mod_pos_bound. lia. Qed.

Lemma not8_small (x : Z) : 0 <= x < 256 -> not8 x = 255 - x.
Proof. intros H. unfold not8. unfold Z.lnot, u8.
  replace (Z.pred (- x)) with ((255 - x) + (-1) * 256) by lia.
  rewrite Z.mod_add by lia. apply Z.mod_small. lia. Qed.

Lemma not8_involutive (x : Z) : 0 <= x < 256 -> not8 (not8 x) = x.
Proof. intros H. rewrite (not8_small x), not8_small by lia. lia. Qed.

(** [not8] flips each of the eight bits. *)
Lemma not8_testbit (x k : Z) :
  0 <= k < 8 -> Z.testbit (not8 x) k = negb (Z.testbit x k).
Proof.
  intros Hk. unfold not8, u8.
  change 256 with (2 ^ 8).
  rewrite Z.mod_pow2_bits_low by lia.
  apply Z.lnot_spec. lia.
Qed.

(** ** The handlers *)

Lemma tick_disabled (r : Regs) :
  running r = false -> ISR_TIMER1_COMPA_vect r = r.
Proof. unfold running, ISR_TIMER1_COMPA_vect. intros ->. reflexivity. Qed.

(** A tick below the end of the countdown: one step up, still running. *)
Lemma tick_counting (r : Regs) :
  running r = true -> 0 <= state r < 63 ->
  ISR_TIMER1_COMPA_vect r = set_state (state r + 1) r.
Proof.
  unfold running, ISR_TIMER1_COMPA_vect. intros -> H. simpl.
  rewrite u8_small by lia.
  destruct (Z.gtb_spec (state r + 1) 63); [lia | reflexivity].
Qed.

(** The tick that ends the countdown. *)
Lemma tick_last (r : Regs) :
  running r = true -> state r = 63 ->
  ISR_TIMER1_COMPA_vect r = set_enabled 0 (set_state 64 r).
Proof.
  unfold running, ISR_TIMER1_COMPA_vect. intros -> H. simpl.
  rewrite H. reflexivity.
Qed.

Lemma boot_inv : DisplayInv boot.
Proof. split; [reflexivity | discriminate]. Qed.

Lemma button_preserves (PINB : Z) (r : Regs) :
  DisplayInv r -> DisplayInv (ISR_PCINT0_vect PINB r).
Proof.
  intros Hr. unfold ISR_PCINT0_vect.
  destruct (truthy _); [|exact Hr].
  destruct (Z.eqb_spec (state r) 255); split; cbn; intros; (lia || discriminate || reflexivity).
Qed.

Lemma tick_preserves (r : Regs) :
  DisplayInv r -> DisplayInv (ISR_TIMER1_COMPA_vect r).
Proof.
  intros [H1 H2].
  destruct (running r) eqn:Hrun.
  - specialize (H2 eq_refl).
    destruct (Z.eq_dec (state r) 63) as [E|E].
    + rewrite tick_last by assumption. split; cbn; intros; (lia || discriminate || reflexivity).
    + rewrite tick_counting by (assumption || lia).
      split; unfold running in *; cbn; intros; (lia || assumption).
  - rewrite tick_disabled by assumption. split; intros; [assumption | congruence].
Qed.

Lemma fire_preserves (i : Irq) (r : Regs) : DisplayInv r -> DisplayInv (fire i r).
Proof. destruct i; [apply button_preserves | apply tick_preserves]. Qed.

Lemma run_preserves (evs : list Irq) (r : Regs) :
  DisplayInv r -> DisplayInv (run evs r).
Proof.
  revert r. induction evs as [|i evs IH]; intros r Hr; [exact Hr|].
  apply IH, fire_preserves, Hr.
Qed.

(** Counting up from [c]: [k] ticks that stay below 64 add [k]. *)
Lemma ticks_counting (k : nat) (c e t : Z) :
  truthy e = true -> 0 <= c -> c + Z.of_nat k <= 63 ->
  Nat.iter k ISR_TIMER1_COMPA_vect {| state := c; enabled := e; TCNT1 := t |}
  = {| state := c + Z.of_nat k; enabled := e; TCNT1 := t |}.
Proof.
  intros He Hc. induction k as [|k IH]; intros Hk.
  - simpl. f_equal. lia.
  - rewrite Nat.iter_succ, IH by lia.
    rewrite tick_counting by (cbn; lia || assumption).
    unfold set_state; cbn. f_equal. lia.
Qed.

(** Once stopped, ticks change nothing. *)
Lemma ticks_disabled (k : nat) (r : Regs) :
  running r = false -> Nat.iter k ISR_TIMER1_COMPA_vect r = r.
Proof.
  intros H. induction k as [|k IH]; [reflexivity|].
  rewrite Nat.iter_succ, IH. apply tick_disabled, H.
Qed.

Lemma ticks_64 (e t : Z) :
  truthy e = true ->
  Nat.iter 64 ISR_TIMER1_COMPA_vect {| state := 0; enabled := e; TCNT1 := t |}
  = {| state := 64; enabled := 0; TCNT1 := t |}.
Proof.
  intros He. change 64%nat with (S 63).
  rewrite Nat.iter_succ, ticks_counting by (assumption || lia).
  rewrite tick_last by (assumption || reflexivity). reflexivity.
Qed.

(** ** Claims about the handlers *)

(** C1. Every run of the button handler: with the button level pressed
    and [state] 255 it leaves [state] 0, [enabled] 1 (running) and the
    timer count [TCNT1] 0; with the level pressed and any other [state]
    it leaves [state] 255 and [enabled] 0 (not running), whatever the
    counter was; with the level released it changes nothing. *)
Theorem input_monitor_law (PINB : Z) (r : Regs) :
  (pressed PINB = true -> state r = 255 ->
     ISR_PCINT0_vect PINB r = {| state := 0; enabled := 1; TCNT1 := 0 |} /\
     running (ISR_PCINT0_vect PINB r) = true) /\
  (pressed PINB = true -> state r <> 255 ->
     ISR_PCINT0_vect PINB r = {| state := 255; enabled := 0; TCNT1 := TCNT1 r |} /\
     running (ISR_PCINT0_vect PINB r) = false) /\
  (pressed PINB = false -> ISR_PCINT0_vect PINB r = r).
Proof.
  unfold pressed, ISR_PCINT0_vect.
  split; [|split]; intros Hp; rewrite Hp.
  - intros Hs. apply Z.eqb_eq in Hs. rewrite Hs. split; reflexivity.
  - intros Hs. apply Z.eqb_neq in Hs. rewrite Hs. split; reflexivity.
  - reflexivity.
Qed.

Lemma input_monitor_law_witness :
  ISR_PCINT0_vect 128 boot = {| state := 0; enabled := 1; TCNT1 := 0 |} /\
  ISR_PCINT0_vect 128 {| state := 17; enabled := 1; TCNT1 := 5 |}
    = {| state := 255; enabled := 0; TCNT1 := 5 |} /\
  ISR_PCINT0_vect 128 {| state := 64; enabled := 0; TCNT1 := 5 |}
    = {| state := 255; enabled := 0; TCNT1 := 5 |} /\
  ISR_PCINT0_vect 0 {| state := 17; enabled := 1; TCNT1 := 5 |}
    = {| state := 17; enabled := 1; TCNT1 := 5 |}.
Proof.
  split; [|split; [|split]].
  - apply (proj1 (input_monitor_law 128 boot)); reflexivity.
  - apply (proj1 (proj2 (input_monitor_law 128 (mkRegs 17 1 5)))); [reflexivity | cbn; lia].
  - apply (proj1 (proj2 (input_monitor_law 128 (mkRegs 64 0 5)))); [reflexivity | cbn; lia].
  - apply (proj2 (proj2 (input_monitor_law 0 (mkRegs 17 1 5)))); reflexivity.
Defined.

(** C2. Every run of the timer handler, in any state the program can be
    in: when not running it changes nothing; when running the counter
    goes up by exactly 1, and if the new value is above 63 it is 64 and
    the handler stops the countdown, leaving the counter at 64.  From
    counter 0 and running, the first [k < 64] ticks give counter [k],
    still running, 64 ticks give counter 64, stopped, and any number of
    further ticks leave that state as it is. *)
Theorem tick_source_law :
  (forall evs : list Irq,
     let r := run evs boot in
     let r' := ISR_TIMER1_COMPA_vect r in
     (running r = false -> r' = r) /\
     (running r = true ->
        state r' = state r + 1 /\ TCNT1 r' = TCNT1 r /\
        (state r' > 63 -> state r' = 64 /\ running r' = false) /\
        (state r' <= 63 -> running r' = true))) /\
  (forall t : Z,
     (forall k : nat, (k < 64)%nat ->
        Nat.iter k ISR_TIMER1_COMPA_vect {| state := 0; enabled := 1; TCNT1 := t |}
        = {| state := Z.of_nat k; enabled := 1; TCNT1 := t |}) /\
     Nat.iter 64 ISR_TIMER1_COMPA_vect {| state := 0; enabled := 1; TCNT1 := t |}
     = {| state := 64; enabled := 0; TCNT1 := t |} /\
     (forall n : nat,
        Nat.iter (64 + n) ISR_TIMER1_COMPA_vect {| state := 0; enabled := 1; TCNT1 := t |}
        = {| state := 64; enabled := 0; TCNT1 := t |})).
Proof.
  split.
  - intros evs r r'. subst r'.
    assert (Hinv : DisplayInv r) by apply run_preserves, boot_inv.
    split; [apply tick_disabled|]. intros Hrun.
    destruct Hinv as [_ Hrange]. specialize (Hrange Hrun).
    destruct (Z.eq_dec (state r) 63) as [E|E].
    + rewrite tick_last by assumption. cbn. repeat split; lia.
    + rewrite tick_counting by (assumption || lia). cbn.
      repeat split; (lia || (intros _; exact Hrun)).
  - intros t. split; [|split].
    + intros k Hk. rewrite ticks_counting by (reflexivity || lia). reflexivity.
    + apply ticks_64. reflexivity.
    + intros n. rewrite Nat.add_comm, Nat.iter_add, ticks_64 by reflexivity.
      apply ticks_disabled. reflexivity.
Qed.

Lemma tick_source_law_witness :
  state (ISR_TIMER1_COMPA_vect (run [PinChange 128; TimerCompare] boot)) = 2 /\
  ISR_TIMER1_COMPA_vect (run [PinChange 128; PinChange 128] boot)
    = run [PinChange 128; PinChange 128] boot /\
  Nat.iter 70 ISR_TIMER1_COMPA_vect {| state := 0; enabled := 1; TCNT1 := 9 |}
    = {| state := 64; enabled := 0; TCNT1 := 9 |}.
Proof.
  split; [|split].
  - apply (proj2 (proj1 tick_source_law [PinChange 128; TimerCompare])). reflexivity.
  - apply (proj1 (proj1 tick_source_law [PinChange 128; PinChange 128])). reflexivity.
  - apply (proj2 (proj2 (proj2 tick_source_law 9)) 6%nat).
Defined.

(** C3. The invariant of the shared variables (counter 255 implies not
    running; running implies counter within 0..63) holds at startup, is
    kept by every run of the button handler and by every run of the
    timer handler, and so holds after any sequence of the two. *)
Theorem display_invariant :
  DisplayInv boot /\
  (forall (PINB : Z) (r : Regs), DisplayInv r -> DisplayInv (ISR_PCINT0_vect PINB r)) /\
  (forall r : Regs, DisplayInv r -> DisplayInv (ISR_TIMER1_COMPA_vect r)) /\
  (forall evs : list Irq, DisplayInv (run evs boot)).
Proof.
  split; [apply boot_inv|].
  split; [apply button_preserves|].
  split; [apply tick_preserves|].
  intros evs. apply run_preserves, boot_inv.
Qed.

Lemma display_invariant_witness :
  DisplayInv (ISR_PCINT0_vect 128 boot) /\
  DisplayInv (ISR_TIMER1_COMPA_vect {| state := 63; enabled := 1; TCNT1 := 0 |}).
Proof.
  split.
  - apply (proj1 (proj2 display_invariant) 128 boot), boot_inv.
  - apply (proj1 (proj2 (proj2 display_invariant))).
    split; cbn; [discriminate | lia].
Defined.

(** ** The driver *)

Lemma writes_ret {A} (a : A) (w : World) : writes (ret a) w a [].
Proof. exists (PORTC w). destruct w. cbn. rewrite app_nil_r. reflexivity. Qed.

Lemma writes_bind {A B} (m : M A) (f : A -> M B) (w : World) a b e1 e2 :
  writes m w a e1 ->
  (forall w', writes (f a) w' b e2) ->
  writes (bind m f) w b (e1 ++ e2).
Proof.
  intros [p Hm] Hf.
  destruct (Hf {| regs := regs w; PORTC := p; irqs := irqs w;
                  trace := trace w ++ e1 |}) as [p' Hf'].
  exists p'. unfold bind. rewrite Hm, Hf'. cbn. rewrite app_assoc. reflexivity.
Qed.

Lemma writes_eq {A} (m : M A) (w : World) a e e' :
  writes m w a e -> e = e' -> writes m w a e'.
Proof. intros H <-. exact H. Qed.

Lemma writes_emit (o : Obs) (w : World) : writes (emit o) w tt [o].
Proof. exists (PORTC w). reflexivity. Qed.

Lemma writes_port_set (l : Line) (w : World) :
  writes (port_set l) w tt [Drive l true].
Proof. eexists. reflexivity. Qed.

Lemma writes_port_clear (l : Line) (w : World) :
  writes (port_clear l) w tt [Drive l false].
Proof. eexists. reflexivity. Qed.

Lemma writes_for_up (n : nat) (body : Z -> M unit) (ev : Z -> list Obs) :
  forall from : Z,
  (forall i, from <= i < from + Z.of_nat n -> forall w, writes (body i) w tt (ev i)) ->
  forall w, writes (for_up n from body) w tt (flat_map ev (upto n from)).
Proof.
  induction n as [|n IH]; intros from Hbody w.
  - apply writes_ret.
  - cbn [for_up upto flat_map]. apply (writes_bind _ _ _ tt).
    + apply Hbody. lia.
    + intros w'. apply IH. intros i Hi. apply Hbody. lia.
Qed.

(** One bit: the data line takes the bit's value, then the clock pulses. *)
Lemma writes_bit (b i : Z) (w : World) :
  0 <= i ->
  writes ((if truthy (Z.land b (Z.shiftl 1 i))
           then port_set DATA_PIN else port_clear DATA_PIN) ;;;
          port_set CLOCK_PIN ;;; port_clear CLOCK_PIN) w tt
         [Drive DATA_PIN (Z.testbit b i); Drive CLOCK_PIN true; Drive CLOCK_PIN false].
Proof.
  intros Hi. rewrite land_bit_testbit by assumption.
  apply (writes_bind _ _ _ tt tt [_] [_; _]).
  - destruct (Z.testbit b i); [apply writes_port_set | apply writes_port_clear].
  - intros w1. apply (writes_bind _ _ _ tt tt [_] [_]).
    + apply writes_port_set.
    + intros w2. apply writes_port_clear.
Qed.

Lemma writes_shift_out (b0 b1 b2 b3 : Z) (w : World) :
  writes (shift_out [b0; b1; b2; b3] 4) w 0 (shifted [b0; b1; b2; b3]).
Proof.
  unfold shift_out, shifted.
  apply (writes_bind _ _ _ tt 0 [_] (_ :: _)); [apply writes_port_clear|]. intros w1.
  apply (writes_bind _ _ _ tt 0 [_] _); [apply writes_port_clear|]. intros w2.
  apply (writes_bind _ _ _ tt 0 _ [_]).
  - eapply writes_eq.
    + apply (writes_for_up _ _ (fun j => pulses (Z.testbit (byte_at [b0; b1; b2; b3] j)))).
      intros j Hj w3. apply writes_for_up. intros i Hi w4. apply writes_bit. lia.
    + reflexivity.
  - intros w3. apply (writes_bind _ _ _ tt 0 [_] []); [apply writes_port_set|].
    intros w4. apply writes_ret.
Qed.

Lemma sent_four (b0 b1 b2 b3 : Z) :
  sent [b0; b1; b2; b3] = [b0; not8 b1; not8 b2; not8 b3].
Proof. reflexivity. Qed.

Lemma writes_show_leds (b0 b1 b2 b3 : Z) (w : World) :
  writes (show_leds [b0; b1; b2; b3]) w
         (sent [b0; b1; b2; b3]) (shown [b0; b1; b2; b3]).
Proof.
  unfold show_leds, shown.
  apply (writes_bind _ _ _ tt _ [_] _); [apply writes_emit|]. intros w1.
  eapply writes_eq.
  - eapply (writes_bind _ _ _ 0); [apply writes_shift_out|].
    intros w2. apply writes_ret.
  - rewrite app_nil_r. reflexivity.
Qed.

(** What a computation appended, read back from the trace. *)
Lemma writes_emitted {A} (m : M A) (w : World) a evs :
  writes m w a evs -> fst (m w) = a /\ emitted m w = evs.
Proof.
  intros [p H]. unfold emitted. rewrite H. cbn. split; [reflexivity|].
  apply drop_app_length.
Qed.

(** Clearing a line that is already low leaves the port register as it is. *)
Lemma port_clear_low (l : Line) (w : World) :
  0 <= PORTC w < 256 -> Z.testbit (PORTC w) (pin l) = false ->
  PORTC (snd (port_clear l w)) = PORTC w.
Proof.
  intros Hp Hl. cbn. rewrite Z.shiftl_1_l.
  assert (Hn : 0 <= pin l) by (destruct l; cbn; lia).
  replace (Z.land (PORTC w) (Z.lnot (2 ^ pin l))) with (PORTC w); [apply u8_small, Hp|].
  apply Z.bits_inj'. intros k Hk.
  rewrite Z.land_spec, Z.lnot_spec, Z.pow2_bits_eqb by lia.
  destruct (Z.eqb_spec (pin l) k) as [<-|]; cbn.
  - rewrite Hl. reflexivity.
  - rewrite andb_true_r. reflexivity.
Qed.

Lemma wire_shifted_four (b0 b1 b2 b3 : Z) :
  wire (shown [b0; b1; b2; b3])
  = [Drive LATCH_PIN false; Drive CLOCK_PIN false]
    ++ pulses (Z.testbit b0)
    ++ pulses (Z.testbit (not8 b1))
    ++ pulses (Z.testbit (not8 b2))
    ++ pulses (Z.testbit (not8 b3))
    ++ [Drive LATCH_PIN true].
Proof. reflexivity. Qed.

(** Only bits 0 to 7 reach the data line. *)
Lemma pulses_ext (f g : Z -> bool) :
  (forall i, 0 <= i < 8 -> f i = g i) -> pulses f = pulses g.
Proof.
  intros H. unfold pulses.
  change (upto 8 0) with [0; 1; 2; 3; 4; 5; 6; 7].
  cbn [flat_map app].
  rewrite (H 0), (H 1), (H 2), (H 3), (H 4), (H 5), (H 6), (H 7) by lia.
  reflexivity.
Qed.

(** The bits of an inverted byte are the inverted bits. *)
Lemma pulses_not8 (x : Z) :
  pulses (Z.testbit (not8 x)) = pulses (fun i => negb (Z.testbit x i)).
Proof. apply pulses_ext. intros i Hi. apply not8_testbit, Hi. Qed.

Lemma pulses_not8_not8 (x : Z) :
  pulses (Z.testbit (not8 (not8 x))) = pulses (Z.testbit x).
Proof.
  apply pulses_ext. intros i Hi.
  rewrite !not8_testbit by assumption. apply negb_involutive.
Qed.

(** ** Claims about the driver *)

(** C5, as the code has it.  For every frame (row, red, green, blue),
    [show_leds] writes to the port exactly: latch low; clock low; then for
    each of the four bytes in the order row, red, green, blue, each bit
    from least to most significant placed on the data line and followed by
    a clock pulse high then low (32 bits); then latch high.  The row byte
    goes out as it is and each colour bit goes out inverted. *)
Theorem transmit_sequence (row red green blue : Z) (w : World) :
  wire (emitted (show_leds [row; red; green; blue]) w)
  = [Drive LATCH_PIN false; Drive CLOCK_PIN false]
    ++ pulses (Z.testbit row)
    ++ pulses (fun i => negb (Z.testbit red i))
    ++ pulses (fun i => negb (Z.testbit green i))
    ++ pulses (fun i => negb (Z.testbit blue i))
    ++ [Drive LATCH_PIN true].
Proof.
  destruct (writes_emitted _ w _ _ (writes_show_leds row red green blue w)) as [_ ->].
  rewrite wire_shifted_four, !pulses_not8. reflexivity.
Qed.

(** C5, in the specification's wording, fails already on the all-zero frame sent
    from the state after reset: the second write of the transmission is
    the clock line driven low, not the first data bit. *)
Lemma transmit_sequence_not_as_claimed :
  wire (emitted (show_leds [0; 0; 0; 0])
                {| regs := boot; PORTC := 0; irqs := []; trace := [] |})
  <> spec_transmit 0 0 0 0.
Proof. vm_compute. discriminate. Qed.

(** C10. [show_leds] changes the array it is given: the row byte stays,
    each colour byte becomes its 8-bit complement (every one of its eight
    bits flipped); a second call on the array as the first call left it
    shifts the colour bits out as they were at first entry, not inverted,
    and, for bytes in range, leaves the array as it was at first entry. *)
Theorem show_leds_in_place (row red green blue : Z) (w : World) :
  let bytes := [row; red; green; blue] in
  let after := fst (show_leds bytes w) in
  let w1 := snd (show_leds bytes w) in
  after = [row; not8 red; not8 green; not8 blue] /\
  (forall x k : Z, 0 <= k < 8 -> Z.testbit (not8 x) k = negb (Z.testbit x k)) /\
  wire (emitted (show_leds after) w1)
  = [Drive LATCH_PIN false; Drive CLOCK_PIN false]
    ++ pulses (Z.testbit row)
    ++ pulses (Z.testbit red)
    ++ pulses (Z.testbit green)
    ++ pulses (Z.testbit blue)
    ++ [Drive LATCH_PIN true] /\
  (0 <= red < 256 -> 0 <= green < 256 -> 0 <= blue < 256 ->
   fst (show_leds after w1) = bytes).
Proof.
  intros bytes after w1.
  assert (Hafter : after = [row; not8 red; not8 green; not8 blue]).
  { subst after bytes.
    destruct (writes_emitted _ w _ _ (writes_show_leds row red green blue w)) as [-> _].
    reflexivity. }
  split; [exact Hafter|]. split; [exact not8_testbit|].
  rewrite Hafter.
  destruct (writes_emitted _ w1 _ _
              (writes_show_leds row (not8 red) (not8 green) (not8 blue) w1)) as [Hfst ->].
  split.
  - rewrite wire_shifted_four, !pulses_not8_not8. reflexivity.
  - intros Hr Hg Hb. rewrite Hfst, sent_four, !not8_involutive by assumption.
    reflexivity.
Qed.

Lemma show_leds_in_place_witness :
  fst (show_leds (fst (show_leds [0x80; 0x10; 0xEF; 0x00]
                                 {| regs := boot; PORTC := 0; irqs := []; trace := [] |}))
                 (snd (show_leds [0x80; 0x10; 0xEF; 0x00]
                                 {| regs := boot; PORTC := 0; irqs := []; trace := [] |})))
  = [0x80; 0x10; 0xEF; 0x00].
Proof.
  apply (proj2 (proj2 (proj2 (show_leds_in_place 0x80 0x10 0xEF 0x00
           {| regs := boot; PORTC := 0; irqs := []; trace := [] |})))); lia.
Defined.

(** ** The main loop between two changes of the shared variables *)

Lemma steady_of_writes {A} (m : M A) (w : World) a e :
  quiet w -> writes m w a e -> steady m w a 0 e.
Proof.
  intros Hq [p H]. eexists. split; [exact H|]. cbn. auto.
Qed.

Lemma steady_bind {A B} (m : M A) (f : A -> M B) (w : World) a b k1 k2 e1 e2 :
  steady m w a k1 e1 ->
  (forall w', regs w' = regs w -> quiet w' -> steady (f a) w' b k2 e2) ->
  steady (bind m f) w b (k1 + k2) (e1 ++ e2).
Proof.
  intros (w1 & Hm & Hr1 & Hq1 & Hi1 & Ht1) Hf.
  destruct (Hf w1 Hr1 Hq1) as (w2 & Hf2 & Hr2 & Hq2 & Hi2 & Ht2).
  exists w2. unfold bind. rewrite Hm, Hf2.
  repeat split; [congruence | assumption | |].
  - rewrite Hi2, Hi1. apply drop_drop.
  - rewrite Ht2, Ht1, app_assoc. reflexivity.
Qed.

Lemma steady_eq {A} (m : M A) (w : World) a a' k e e' :
  steady m w a k e -> a = a' -> e = e' -> steady m w a' k e'.
Proof. intros H <- <-. exact H. Qed.

(** In a quiet world a load of [state] gives the value it has. *)
Lemma steady_read_state (w : World) :
  quiet w -> steady read_state w (state (regs w)) 1 [].
Proof.
  intros Hq. unfold quiet in Hq.
  assert (Hrun : run (hd [] (irqs w)) (regs w) = regs w).
  { destruct Hq; [reflexivity | assumption]. }
  exists {| regs := regs w; PORTC := PORTC w; irqs := tl (irqs w); trace := trace w |}.
  split; [unfold read_state; rewrite Hrun; reflexivity|].
  cbn. rewrite app_nil_r. split; [reflexivity|]. split; [|split; [|reflexivity]].
  - unfold quiet. cbn. destruct Hq; [constructor | assumption].
  - destruct (irqs w); reflexivity.
Qed.

Lemma steady_show_leds (bytes : list Z) (w : World) :
  length bytes = 4%nat -> quiet w ->
  steady (show_leds bytes) w (sent bytes) 0 (shown bytes).
Proof.
  intros Hlen Hq.
  destruct bytes as [|b0 [|b1 [|b2 [|b3 [|]]]]]; try discriminate.
  apply steady_of_writes; [assumption | apply writes_show_leds].
Qed.

Lemma sent_length (bytes : list Z) : length (sent bytes) = length bytes.
Proof. unfold sent, negate_at. rewrite !length_insert. reflexivity. Qed.

Lemma row_leds_length (s ar lr j : Z) : length (row_leds s ar lr j) = 4%nat.
Proof. reflexivity. Qed.

(** One row of the scan. *)
Lemma steady_scan_row (ar lr j : Z) (leds : list Z) (w : World) :
  length leds = 4%nat -> quiet w ->
  steady (scan_row ar lr j leds) w
         (sent (row_leds (state (regs w)) ar lr j)) 2
         (shown (row_leds (state (regs w)) ar lr j)).
Proof.
  intros Hlen Hq.
  destruct leds as [|l0 [|l1 [|l2 [|l3 [|]]]]]; try discriminate.
  unfold scan_row.
  apply (steady_bind _ _ _ _ _ _ 1 _ _ (steady_read_state w Hq)). intros w1 Hr1 Hq1.
  apply (steady_bind _ _ _ _ _ _ 0 _ _ (steady_read_state w1 Hq1)). intros w2 Hr2 Hq2.
  rewrite Hr1. set (s := state (regs w)).
  eapply steady_eq; [apply steady_show_leds; [|exact Hq2] | |]; unfold row_leds;
    destruct (s <? 32);
    destruct (Z.eqb_spec j ar); try reflexivity;
    destruct (Z.ltb_spec j ar); try reflexivity;
    destruct (Z.gtb_spec j ar); try reflexivity; lia.
Qed.

Lemma steady_delay (ms : Z) (w : World) :
  quiet w -> steady (_delay_ms ms) w tt 0 [Delay ms].
Proof. intros Hq. apply steady_of_writes; [assumption | apply writes_emit]. Qed.

(** The rows of a scan, one after the other, on the same array. *)
Lemma steady_rows (s ar lr : Z) (n : nat) :
  forall (from : Z) (leds : list Z) (w : World),
  length leds = 4%nat -> quiet w -> state (regs w) = s ->
  steady (for_up_with n from (scan_row ar lr) leds) w
         (leds_after_rows s ar lr n from leds) (n * 2)
         (flat_map shown (map (row_leds s ar lr) (upto n from))).
Proof.
  induction n as [|n IH]; intros from leds w Hlen Hq Hs.
  - apply steady_of_writes; [assumption | apply writes_ret].
  - cbn [for_up_with upto map flat_map leds_after_rows].
    apply (steady_bind _ _ _ (sent (row_leds s ar lr from)) _ 2 (n * 2)).
    + rewrite <- Hs. apply steady_scan_row; assumption.
    + intros w' Hr' Hq'. apply IH; [reflexivity | assumption | congruence].
Qed.

Lemma leds_after_rows_length (s ar lr : Z) (n : nat) :
  forall (from : Z) (leds : list Z),
  length leds = 4%nat -> length (leds_after_rows s ar lr n from leds) = 4%nat.
Proof.
  induction n as [|n IH]; intros from leds Hlen; [exact Hlen|].
  cbn [leds_after_rows]. apply IH. reflexivity.
Qed.

Lemma pass_leds_length (s : Z) (leds : list Z) :
  length leds = 4%nat -> length (pass_leds s leds) = 4%nat.
Proof.
  intros Hlen. unfold pass_leds.
  destruct (s =? 255); [reflexivity|].
  destruct (s >? 63); [reflexivity|].
  apply leds_after_rows_length, Hlen.
Qed.

Lemma store_four (leds : list Z) (a b c d : Z) :
  length leds = 4%nat ->
  store 3 d (store 2 c (store 1 b (store 0 a leds))) = [u8 a; u8 b; u8 c; u8 d].
Proof.
  intros Hlen.
  destruct leds as [|l0 [|l1 [|l2 [|l3 [|]]]]]; try discriminate. reflexivity.
Qed.

(** One iteration of the loop in a quiet world. *)
Lemma steady_loop_body (leds : list Z) (w : World) :
  length leds = 4%nat -> quiet w ->
  steady (loop_body leds) w
         (pass_leds (state (regs w)) leds) (pass_loads (state (regs w)))
         (pass_events (state (regs w))).
Proof.
  intros Hlen Hq. unfold loop_body, pass_leds, pass_loads, pass_events.
  set (s := state (regs w)) in *.
  destruct (s =? 255) eqn:Eidle.
  { apply (steady_bind _ _ _ _ _ _ 0 _ _ (steady_read_state w Hq)). intros w1 Hr1 Hq1.
    fold s. rewrite Eidle, store_four by assumption.
    apply steady_show_leds; [reflexivity | assumption]. }
  destruct (s >? 63) eqn:Eover.
  { apply (steady_bind _ _ _ _ _ _ 1 _ _ (steady_read_state w Hq)). intros w1 Hr1 Hq1.
    fold s. rewrite Eidle.
    apply (steady_bind _ _ _ _ _ _ 0 _ _ (steady_read_state w1 Hq1)). intros w2 Hr2 Hq2.
    rewrite Hr1. fold s. rewrite Eover, store_four by assumption.
    apply (steady_bind _ _ _ _ _ _ 0 _ _
             (steady_show_leds [0xff; 0xff; 0x00; 0x00] w2 eq_refl Hq2)).
    intros w3 Hr3 Hq3.
    apply (steady_bind _ _ _ _ _ _ 0 _ _ (steady_delay 500 w3 Hq3)). intros w4 Hr4 Hq4.
    rewrite store_four by reflexivity.
    apply (steady_bind _ _ _ _ _ _ 0 _ [_]
             (steady_show_leds [0x00; 0x00; 0x00; 0x00] w4 eq_refl Hq4)).
    intros w5 Hr5 Hq5.
    apply (steady_bind _ _ _ _ _ _ 0 _ [] (steady_delay 500 w5 Hq5)). intros w6 Hr6 Hq6.
    apply steady_of_writes; [assumption | apply writes_ret]. }
  apply (steady_bind _ _ _ _ _ _ 19 _ _ (steady_read_state w Hq)). intros w1 Hr1 Hq1.
  fold s. rewrite Eidle.
  apply (steady_bind _ _ _ _ _ _ 18 _ _ (steady_read_state w1 Hq1)). intros w2 Hr2 Hq2.
  rewrite Hr1. fold s. rewrite Eover.
  apply (steady_bind _ _ _ _ _ _ 17 _ _ (steady_read_state w2 Hq2)). intros w3 Hr3 Hq3.
  apply (steady_bind _ _ _ _ _ _ 16 _ _ (steady_read_state w3 Hq3)). intros w4 Hr4 Hq4.
  rewrite Hr3, Hr2, Hr1. fold s.
  apply (steady_rows s _ _ 8); [assumption | assumption | unfold s; congruence].
Qed.

(** Any number of iterations in a quiet world: the shared variables stay,
    so every iteration appends the same events. *)
Lemma steady_main_loop (n : nat) :
  forall (leds : list Z) (w : World),
  length leds = 4%nat -> quiet w ->
  steady (main_loop n leds) w
         (Nat.iter n (pass_leds (state (regs w))) leds)
         (n * pass_loads (state (regs w)))
         (concat (repeat (pass_events (state (regs w))) n)).
Proof.
  induction n as [|n IH]; intros leds w Hlen Hq.
  - apply steady_of_writes; [assumption | apply writes_ret].
  - cbn [main_loop repeat concat]. rewrite Nat.iter_succ_r.
    apply (steady_bind _ _ _ _ _ _ (n * pass_loads (state (regs w))) _ _
             (steady_loop_body leds w Hlen Hq)).
    intros w1 Hr1 Hq1. rewrite <- Hr1.
    apply IH; [apply pass_leds_length, Hlen | assumption].
Qed.

(** Reading the events of a steady computation back from the trace. *)
Lemma steady_emitted {A} (m : M A) (w : World) a k evs :
  steady m w a k evs -> fst (m w) = a /\ emitted m w = evs.
Proof.
  intros (w' & Hm & _ & _ & _ & Ht). unfold emitted. rewrite Hm. cbn.
  split; [reflexivity|]. rewrite Ht. apply drop_app_length.
Qed.

(** ** Reading frames back *)

Lemma frames_app (a b : list Obs) : frames (a ++ b) = frames a ++ frames b.
Proof. apply flat_map_app. Qed.

Lemma timeline_app (a b : list Obs) : timeline (a ++ b) = timeline a ++ timeline b.
Proof. apply List.filter_app. Qed.

Lemma frames_shifted (bytes : list Z) : frames (shifted bytes) = [].
Proof.
  unfold shifted. cbn [app frames flat_map]. rewrite !flat_map_app.
  cbn. rewrite app_nil_r.
  induction bytes as [|b bytes IH]; [reflexivity|].
  cbn [flat_map]. rewrite flat_map_app, IH. reflexivity.
Qed.

Lemma timeline_shifted (bytes : list Z) : timeline (shifted bytes) = [].
Proof.
  unfold shifted. cbn [app timeline List.filter]. rewrite List.filter_app.
  cbn. rewrite app_nil_r.
  induction bytes as [|b bytes IH]; [reflexivity|].
  cbn [flat_map]. rewrite List.filter_app, IH. reflexivity.
Qed.

Lemma frames_shown (bytes : list Z) : frames (shown bytes) = [bytes].
Proof.
  unfold shown. change (ShowLeds bytes :: ?l) with ([ShowLeds bytes] ++ l).
  rewrite frames_app, frames_shifted. reflexivity.
Qed.

Lemma timeline_shown (bytes : list Z) : timeline (shown bytes) = [ShowLeds bytes].
Proof.
  unfold shown. change (ShowLeds bytes :: ?l) with ([ShowLeds bytes] ++ l).
  rewrite timeline_app, timeline_shifted. reflexivity.
Qed.

Lemma frames_scan (ls : list (list Z)) : frames (flat_map shown ls) = ls.
Proof.
  induction ls as [|l ls IH]; [reflexivity|].
  cbn [flat_map]. rewrite frames_app, frames_shown, IH. reflexivity.
Qed.

Lemma timeline_passes (evs : list Obs) (n : nat) :
  timeline (concat (repeat evs n)) = concat (repeat (timeline evs) n).
Proof.
  induction n as [|n IH]; [reflexivity|].
  cbn [repeat concat]. rewrite timeline_app, IH. reflexivity.
Qed.

Lemma pass_events_running (s : Z) :
  0 <= s <= 63 -> pass_events s = flat_map shown (scan_leds s).
Proof.
  intros Hs. unfold pass_events.
  destruct (Z.eqb_spec s 255); [lia|].
  destruct (Z.gtb_spec s 63); [lia | reflexivity].
Qed.

Lemma pass_events_overtime (s : Z) :
  s > 63 -> s <> 255 ->
  timeline (pass_events s)
  = [ShowLeds [0xff; 0xff; 0x00; 0x00]; Delay 500; ShowLeds [0x00; 0x00; 0x00; 0x00]; Delay 500].
Proof.
  intros Hs Hne. unfold pass_events.
  destruct (Z.eqb_spec s 255); [lia|].
  destruct (Z.gtb_spec s 63); [|lia].
  rewrite !timeline_app, !timeline_shown. reflexivity.
Qed.

Lemma pass_events_idle :
  timeline (pass_events 255) = [ShowLeds [0xff; 0x00; 0x00; 0xff]].
Proof. unfold pass_events. cbn [Z.eqb Pos.eqb]. apply timeline_shown. Qed.


(** Bit inclusion, bit by bit. *)
Lemma submask_testbit (a b : Z) :
  submask a b = true ->
  forall k, Z.testbit a k = true -> Z.testbit b k = true.
Proof.
  unfold submask. intros H k Ha. apply Z.eqb_eq in H.
  rewrite <- H, Z.land_spec in Ha. apply andb_true_iff in Ha. tauto.
Qed.

(** ** Claims about the tables and the main loop *)




(** C6, as the code has it.  Each of the two tables is two runs of four
    widening masks: for every index [i] from 0 to 6 other than 3, every
    bit set in entry [i] is set in entry [i + 1]; entries 3 and 7 are the
    full nibble; and the step from entry 3 to entry 4 starts the second
    run from a single bit at the other end of the nibble. *)
Theorem tables_widen_in_two_runs (i : Z) :
  0 <= i <= 6 -> i <> 3 ->
  (forall k, Z.testbit (byte_at red_left i) k = true ->
             Z.testbit (byte_at red_left (i + 1)) k = true) /\
  (forall k, Z.testbit (byte_at red_right i) k = true ->
             Z.testbit (byte_at red_right (i + 1)) k = true) /\
  length red_left = 8%nat /\ length red_right = 8%nat /\
  byte_at red_left 3 = 0xf /\ byte_at red_left 7 = 0xf /\
  byte_at red_right 3 = 0xf /\ byte_at red_right 7 = 0xf /\
  byte_at red_left 4 = 0x8 /\ byte_at red_right 4 = 0x1.
Proof.
  intros Hi Hne.
  assert (Hcases : i = 0 \/ i = 1 \/ i = 2 \/ i = 4 \/ i = 5 \/ i = 6) by lia.
  repeat split; try reflexivity;
    apply submask_testbit;
    repeat (destruct Hcases as [-> | Hcases]); try subst i; reflexivity.
Qed.

Lemma tables_widen_in_two_runs_witness :
  Z.testbit (byte_at red_left 5) 2 = true /\
  Z.testbit (byte_at red_left (5 + 1)) 2 = true.
Proof.
  split; [reflexivity|].
  refine (proj1 (tables_widen_in_two_runs 5 _ _) 2 _); [lia | lia | reflexivity].
Defined.

(** C6, in the specification's wording, fails at index 3 of [red_left]: bit 0 is
    set in entry 3 (0xf) and clear in entry 4 (0x8). *)
Lemma tables_not_widening_at_3 :
  ~ (forall i, 0 <= i <= 6 ->
     forall k, Z.testbit (byte_at red_left i) k = true ->
               Z.testbit (byte_at red_left (i + 1)) k = true).
Proof.
  intros H. specialize (H 3 ltac:(lia) 0 eq_refl). discriminate H.
Qed.

(** C7. With counter 0 and no handler changing the shared variables
    during the iteration (running or not: the loop never looks at
    [enabled]), the first frame shown has row byte 0x80, red 0x10 (entry 0
    of [red_left] moved into the high nibble), green 0xEF (the complement
    of the red byte) and blue 0x00; the second frame has red 0x00 and
    green 0xFF (with row byte 0x40 and blue 0x00). *)
Theorem first_pass_after_start (leds : list Z) (w : World) :
  length leds = 4%nat -> quiet w -> state (regs w) = 0 ->
  let fs := frames (emitted (loop_body leds) w) in
  fs !! 0%nat = Some [0x80; 0x10; 0xEF; 0x00] /\
  fs !! 1%nat = Some [0x40; 0x00; 0xFF; 0x00] /\
  Z.shiftl (byte_at red_left 0) 4 = 0x10 /\
  not8 0x10 = 0xEF /\
  actual_row_of 0 = 0 /\ last_red_of 0 = 0.
Proof.
  intros Hlen Hq Hs fs.
  assert (Hfs : fs = scan_leds 0).
  { subst fs.
    destruct (steady_emitted _ w _ _ _ (steady_loop_body leds w Hlen Hq)) as [_ ->].
    rewrite Hs. apply frames_scan. }
  rewrite Hfs. repeat split; reflexivity.
Qed.

Lemma first_pass_after_start_witness :
  frames (emitted (loop_body [0; 0; 0; 0])
                  {| regs := run [PinChange 128] boot;
                     PORTC := 0; irqs := []; trace := [] |}) !! 0%nat
  = Some [0x80; 0x10; 0xEF; 0x00].
Proof.
  refine (proj1 (first_pass_after_start [0; 0; 0; 0]
            {| regs := run [PinChange 128] boot;
               PORTC := 0; irqs := []; trace := [] |} _ _ _)).
  - reflexivity.
  - constructor.
  - reflexivity.
Defined.

(** C8, as the code has it.  Whenever the counter is above 63 and is not
    255, and no handler changes the shared variables meanwhile, the loop
    shows, iteration after iteration, the frame (0xFF, 0xFF, 0x00, 0x00),
    waits 500 ms, shows the all-zero frame, waits 500 ms: the two frames
    alternate strictly, each held for the same time, and no other frame is
    shown.  At counter 255 it shows the idle frame (0xFF, 0x00, 0x00,
    0xFF) once per iteration instead, without waiting. *)
Theorem overtime_flashing (n : nat) (leds : list Z) (w : World) :
  length leds = 4%nat -> quiet w ->
  (state (regs w) > 63 -> state (regs w) <> 255 ->
   timeline (emitted (main_loop n leds) w)
   = concat (repeat [ShowLeds [0xff; 0xff; 0x00; 0x00]; Delay 500;
                     ShowLeds [0x00; 0x00; 0x00; 0x00]; Delay 500] n)) /\
  (state (regs w) = 255 ->
   timeline (emitted (main_loop n leds) w)
   = concat (repeat [ShowLeds [0xff; 0x00; 0x00; 0xff]] n)).
Proof.
  intros Hlen Hq.
  destruct (steady_emitted _ w _ _ _ (steady_main_loop n leds w Hlen Hq)) as [_ ->].
  rewrite timeline_passes. split.
  - intros Hs Hne. rewrite pass_events_overtime by assumption. reflexivity.
  - intros ->. rewrite pass_events_idle. reflexivity.
Qed.

Lemma overtime_flashing_witness :
  timeline (emitted (main_loop 3 [0; 0; 0; 0])
                    {| regs := {| state := 64; enabled := 0; TCNT1 := 0 |};
                       PORTC := 0; irqs := [[TimerCompare]; [PinChange 0]]; trace := [] |})
  = concat (repeat [ShowLeds [0xff; 0xff; 0x00; 0x00]; Delay 500;
                    ShowLeds [0x00; 0x00; 0x00; 0x00]; Delay 500] 3).
Proof.
  refine (proj1 (overtime_flashing 3 [0; 0; 0; 0]
            {| regs := {| state := 64; enabled := 0; TCNT1 := 0 |};
               PORTC := 0; irqs := [[TimerCompare]; [PinChange 0]]; trace := [] |} _ _) _ _).
  - reflexivity.
  - repeat constructor.
  - cbn. lia.
  - cbn. lia.
Defined.

(** C8, in the specification's wording, fails.  At counter 255, which is
    above 63, the loop shows the idle frame (0xFF, 0x00, 0x00, 0xFF),
    which is neither of the two overtime frames, and does not wait.  And
    a change of the counter in the middle of an iteration is not followed
    until the next one: when the tick from 63 to 64 falls after the two
    loads that choose the branch, the loop shows eight scan frames, and no
    overtime frame, while the counter is 64; when a press at counter 0
    falls between those two loads, it shows the overtime frames, with
    their waits, while the counter is 255. *)
Lemma overtime_not_at_255 :
  (state boot > 63 /\
   timeline (emitted (main_loop 1 [0; 0; 0; 0])
                     {| regs := boot; PORTC := 0; irqs := []; trace := [] |})
   = [ShowLeds [0xff; 0x00; 0x00; 0xff]] /\
   timeline (emitted (main_loop 1 [0; 0; 0; 0])
                     {| regs := boot; PORTC := 0; irqs := []; trace := [] |})
   <> concat (repeat [ShowLeds [0xff; 0xff; 0x00; 0x00]; Delay 500;
                      ShowLeds [0x00; 0x00; 0x00; 0x00]; Delay 500] 1)) /\
  (regs ticked_at_63 = {| state := 63; enabled := 1; TCNT1 := 0 |} /\
   fst (read_state (snd (read_state (snd (read_state ticked_at_63))))) = 64 /\
   regs (snd (loop_body [0; 0; 0; 0] ticked_at_63))
   = {| state := 64; enabled := 0; TCNT1 := 0 |} /\
   timeline (emitted (loop_body [0; 0; 0; 0]) ticked_at_63)
   = map (fun j => ShowLeds [2 ^ j; 0xff; 0x00; 0x00]) (upto 8 0)) /\
  (regs pressed_at_0 = {| state := 0; enabled := 1; TCNT1 := 0 |} /\
   fst (read_state (snd (read_state pressed_at_0))) = 255 /\
   regs (snd (loop_body [0; 0; 0; 0] pressed_at_0))
   = {| state := 255; enabled := 0; TCNT1 := 0 |} /\
   timeline (emitted (loop_body [0; 0; 0; 0]) pressed_at_0)
   = [ShowLeds [0xff; 0xff; 0x00; 0x00]; Delay 500;
      ShowLeds [0x00; 0x00; 0x00; 0x00]; Delay 500]).
Proof.
  split; [|split].
  - split; [reflexivity|]. split; [vm_compute; reflexivity|].
    vm_compute. discriminate.
  - repeat split; vm_compute; reflexivity.
  - repeat split; vm_compute; reflexivity.
Qed.




(** One scan loads [state] twenty times: two loads for the choice of the
    branch, one each for [actual_row] and [last_red], two per row. *)
Example scan_loads_state_twenty_times :
  length (irqs (snd (loop_body [0; 0; 0; 0]
                       {| regs := {| state := 0; enabled := 1; TCNT1 := 0 |};
                          PORTC := 0; irqs := repeat [] 25; trace := [] |})))
  = 5%nat.
Proof. vm_compute. reflexivity. Qed.

(** * Further properties *)

(** ** The handlers over sequences of interrupts *)

Lemma run_app (a b : list Irq) (r : Regs) : run (a ++ b) r = run b (run a r).
Proof. apply fold_left_app. Qed.

Lemma run_ticks (k : nat) (r : Regs) :
  run (repeat TimerCompare k) r = Nat.iter k ISR_TIMER1_COMPA_vect r.
Proof.
  revert r. induction k as [|k IH]; intros r; [reflexivity|].
  rewrite Nat.iter_succ_r. cbn [repeat]. apply IH.
Qed.

Lemma release_ignored (PINB : Z) (r : Regs) :
  pressed PINB = false -> ISR_PCINT0_vect PINB r = r.
Proof. unfold pressed, ISR_PCINT0_vect. intros ->. reflexivity. Qed.

Lemma ticks_in_tick (evs : list Irq) :
  ticks_in (TimerCompare :: evs) = 1 + ticks_in evs.
Proof. unfold ticks_in. cbn [List.filter length]. lia. Qed.

Lemma ticks_in_pin (PINB : Z) (evs : list Irq) :
  ticks_in (PinChange PINB :: evs) = ticks_in evs.
Proof. reflexivity. Qed.

Lemma ticks_in_nonneg (evs : list Irq) : 0 <= ticks_in evs.
Proof. unfold ticks_in. lia. Qed.

(** Stopped, and no press: nothing changes. *)
Lemma run_stopped (evs : list Irq) (r : Regs) :
  running r = false -> forallb no_press evs = true -> run evs r = r.
Proof.
  intros Hstop. induction evs as [|i evs IH]; intros Hno; [reflexivity|].
  cbn [forallb] in Hno. apply andb_true_iff in Hno as [Hi Hrest].
  cbn [run fold_left]. fold (run evs (fire i r)).
  destruct i as [PINB|]; cbn [fire no_press] in *.
  - rewrite release_ignored by (apply negb_true_iff, Hi). apply IH, Hrest.
  - rewrite tick_disabled by assumption. apply IH, Hrest.
Qed.

(** Counting, and no press: the ticks add up until 64 is reached. *)
Lemma run_counting (evs : list Irq) :
  forall r : Regs,
  running r = true -> 0 <= state r <= 63 -> forallb no_press evs = true ->
  run evs r = if state r + ticks_in evs <=? 63
              then set_state (state r + ticks_in evs) r
              else set_enabled 0 (set_state 64 r).
Proof.
  induction evs as [|i evs IH]; intros r Hrun Hc Hno.
  - cbn [run fold_left]. change (ticks_in []) with 0. rewrite Z.add_0_r.
    destruct (Z.leb_spec (state r) 63); [|lia]. destruct r; reflexivity.
  - cbn [forallb] in Hno. apply andb_true_iff in Hno as [Hi Hrest].
    cbn [run fold_left]. fold (run evs (fire i r)).
    destruct i as [PINB|]; cbn [fire no_press] in *.
    + rewrite release_ignored by (apply negb_true_iff, Hi).
      rewrite ticks_in_pin. apply IH; assumption.
    + rewrite ticks_in_tick. pose proof (ticks_in_nonneg evs) as Hnn.
      destruct (Z.eq_dec (state r) 63) as [E|E].
      * rewrite tick_last by assumption.
        rewrite run_stopped by (reflexivity || assumption).
        destruct (Z.leb_spec (state r + (1 + ticks_in evs)) 63); [lia | reflexivity].
      * rewrite tick_counting by (assumption || lia).
        rewrite IH by (assumption || (cbn; lia)). cbn [state set_state].
        replace (state r + 1 + ticks_in evs) with (state r + (1 + ticks_in evs)) by lia.
        destruct (state r + (1 + ticks_in evs) <=? 63); reflexivity.
Qed.

Lemma shape_fire (i : Irq) (r : Regs) :
  shape (state r) (enabled r) -> shape (state (fire i r)) (enabled (fire i r)).
Proof.
  unfold shape. intros H. destruct i as [PINB|]; cbn [fire].
  - unfold ISR_PCINT0_vect. destruct (truthy _); [|exact H].
    destruct (Z.eqb_spec (state r) 255); cbn; lia.
  - destruct (running r) eqn:Hrun.
    + assert (Hc : 0 <= state r <= 63).
      { unfold running in Hrun. apply truthy_true in Hrun. lia. }
      destruct (Z.eq_dec (state r) 63).
      * rewrite tick_last by assumption. cbn. lia.
      * rewrite tick_counting by (assumption || lia). cbn. lia.
    + rewrite tick_disabled by assumption. exact H.
Qed.

Lemma shape_run (evs : list Irq) (r : Regs) :
  shape (state r) (enabled r) -> shape (state (run evs r)) (enabled (run evs r)).
Proof.
  revert r. induction evs as [|i evs IH]; intros r H; [exact H|].
  apply IH, shape_fire, H.
Qed.

(** X1. The states the shared variables can be in are exactly: waiting
    (counter 255, stopped), counting (counter 0 to 63, [enabled] 1) and
    overtime (counter 64, stopped).  Each of them is reached from
    start-up by some sequence of interrupts, and no sequence reaches any
    other; the counter is never in 65..254 and [enabled] is never
    anything but 0 or 1. *)
Theorem reachable_states (c e : Z) :
  (exists (evs : list Irq) (t : Z),
     run evs boot = {| state := c; enabled := e; TCNT1 := t |})
  <-> shape c e.
Proof.
  split.
  - intros (evs & t & H).
    pose proof (shape_run evs boot) as Hs. rewrite H in Hs. apply Hs.
    left. split; reflexivity.
  - intros [[-> ->] | [[Hc ->] | [-> ->]]].
    + exists [], 0. reflexivity.
    + exists (PinChange 128 :: repeat TimerCompare (Z.to_nat c)), 0.
      change (PinChange 128 :: ?l) with ([PinChange 128] ++ l).
      rewrite run_app, run_ticks.
      change (run [PinChange 128] boot) with {| state := 0; enabled := 1; TCNT1 := 0 |}.
      rewrite ticks_counting by (reflexivity || lia). f_equal. lia.
    + exists (PinChange 128 :: repeat TimerCompare 64), 0.
      change (PinChange 128 :: ?l) with ([PinChange 128] ++ l).
      rewrite run_app, run_ticks. apply ticks_64. reflexivity.
Qed.

(** X2. As long as the button is not pressed, interrupts only count:
    when the countdown is stopped (waiting or overtime), compare matches
    and releases of the button change nothing; when it is running at
    counter [c], they leave counter [c + n] for [n] compare matches while
    that is at most 63, and counter 64, stopped, from then on; releases
    in between make no difference. *)
Theorem without_a_press (evs : list Irq) (r : Regs) :
  forallb no_press evs = true ->
  (running r = false -> run evs r = r) /\
  (running r = true -> 0 <= state r <= 63 ->
   run evs r = if state r + ticks_in evs <=? 63
               then set_state (state r + ticks_in evs) r
               else set_enabled 0 (set_state 64 r)).
Proof.
  intros Hno. split.
  - intros Hstop. apply run_stopped; assumption.
  - intros Hrun Hc. apply run_counting; assumption.
Qed.

Lemma without_a_press_witness :
  run [TimerCompare; PinChange 0; TimerCompare; TimerCompare]
      {| state := 61; enabled := 1; TCNT1 := 5 |}
  = {| state := 64; enabled := 0; TCNT1 := 5 |}.
Proof.
  refine (proj2 (without_a_press [TimerCompare; PinChange 0; TimerCompare; TimerCompare]
                   {| state := 61; enabled := 1; TCNT1 := 5 |} _) _ _).
  - reflexivity.
  - reflexivity.
  - cbn. lia.
Defined.

(** ** The driver: any length, levels on the lines *)

Lemma upto_succ_r (n : nat) (from : Z) :
  upto (S n) from = from :: upto n (from + 1).
Proof. reflexivity. Qed.

(** The bytes a loop over the first [n] indexes from [k] on reads. *)
Lemma flat_map_byte_at {B} (f : Z -> list B) (bytes : list Z) (n : nat) :
  forall k : nat, (k + n <= length bytes)%nat ->
  flat_map (fun j => f (byte_at bytes j)) (upto n (Z.of_nat k))
  = flat_map f (firstn n (skipn k bytes)).
Proof.
  induction n as [|n IH]; intros k Hk; [reflexivity|].
  assert (Hlook : bytes !! k = Some (bytes !!! k)).
  { apply list_lookup_lookup_total_lt. lia. }
  rewrite (drop_S _ _ _ Hlook).
  cbn [upto firstn flat_map]. f_equal.
  - unfold byte_at. rewrite Nat2Z.id. reflexivity.
  - replace (Z.of_nat k + 1) with (Z.of_nat (S k)) by lia. apply IH. lia.
Qed.

(** X3. [shift_out] on the first [n] bytes of an array (at most 255, the
    range of its size parameter): latch low, clock low, the bits of those
    [n] bytes and no others, least significant first, each with its clock
    pulse, then latch high; the result is 0 and the shared variables are
    not touched.  With [n = 0] only the three writes to latch, clock and
    latch remain. *)
Theorem shift_out_prefix (bytes : list Z) (n : nat) (w : World) :
  (n <= length bytes)%nat -> (n <= 255)%nat ->
  writes (shift_out bytes (Z.of_nat n)) w 0 (shifted (firstn n bytes)) /\
  (n = 0%nat ->
   emitted (shift_out bytes 0) w
   = [Drive LATCH_PIN false; Drive CLOCK_PIN false; Drive LATCH_PIN true]).
Proof.
  intros Hn _.
  assert (Hw : writes (shift_out bytes (Z.of_nat n)) w 0 (shifted (firstn n bytes))).
  { unfold shift_out, shifted. rewrite Nat2Z.id.
    apply (writes_bind _ _ _ tt 0 [_] (_ :: _)); [apply writes_port_clear|]. intros w1.
    apply (writes_bind _ _ _ tt 0 [_] _); [apply writes_port_clear|]. intros w2.
    apply (writes_bind _ _ _ tt 0 _ [_]).
    - eapply writes_eq.
      + apply (writes_for_up _ _ (fun j => pulses (Z.testbit (byte_at bytes j)))).
        intros j Hj w3. apply writes_for_up. intros i Hi w4. apply writes_bit. lia.
      + apply (flat_map_byte_at (fun b => pulses (Z.testbit b)) bytes n 0). lia.
    - intros w3. apply (writes_bind _ _ _ tt 0 [_] []); [apply writes_port_set|].
      intros w4. apply writes_ret. }
  split; [exact Hw|].
  intros ->. apply (writes_emitted _ w 0). exact Hw.
Qed.

Lemma shift_out_prefix_witness :
  writes (shift_out [0xAA; 0x55; 0x0F] 2)
         {| regs := boot; PORTC := 0; irqs := []; trace := [] |} 0
         (shifted [0xAA; 0x55]).
Proof.
  refine (proj1 (shift_out_prefix [0xAA; 0x55; 0x0F] 2
                   {| regs := boot; PORTC := 0; irqs := []; trace := [] |} _ _)).
  - cbn. lia.
  - lia.
Defined.

(** *** The port register follows the writes *)

Lemma drives_ret {A} (a : A) (w : World) : drives (ret a) w a [].
Proof. unfold drives. destruct w. cbn. rewrite app_nil_r. reflexivity. Qed.

Lemma drives_bind {A B} (m : M A) (f : A -> M B) (w : World) a b e1 e2 :
  drives m w a e1 ->
  (forall w', drives (f a) w' b e2) ->
  drives (bind m f) w b (e1 ++ e2).
Proof.
  unfold drives. intros Hm Hf. unfold bind. rewrite Hm, Hf. cbn.
  rewrite fold_left_app, app_assoc. reflexivity.
Qed.

Lemma drives_eq {A} (m : M A) (w : World) a e e' :
  drives m w a e -> e = e' -> drives m w a e'.
Proof. intros H <-. exact H. Qed.

Lemma drives_emit_frame (bytes : list Z) (w : World) :
  drives (emit (ShowLeds bytes)) w tt [ShowLeds bytes].
Proof. reflexivity. Qed.

Lemma drives_port_set (l : Line) (w : World) :
  drives (port_set l) w tt [Drive l true].
Proof. reflexivity. Qed.

Lemma drives_port_clear (l : Line) (w : World) :
  drives (port_clear l) w tt [Drive l false].
Proof. reflexivity. Qed.

Lemma drives_for_up (n : nat) (body : Z -> M unit) (ev : Z -> list Obs) :
  forall from : Z,
  (forall i, from <= i < from + Z.of_nat n -> forall w, drives (body i) w tt (ev i)) ->
  forall w, drives (for_up n from body) w tt (flat_map ev (upto n from)).
Proof.
  induction n as [|n IH]; intros from Hbody w.
  - apply drives_ret.
  - cbn [for_up upto flat_map]. apply (drives_bind _ _ _ tt).
    + apply Hbody. lia.
    + intros w'. apply IH. intros i Hi. apply Hbody. lia.
Qed.

Lemma drives_bit (b i : Z) (w : World) :
  0 <= i ->
  drives ((if truthy (Z.land b (Z.shiftl 1 i))
           then port_set DATA_PIN else port_clear DATA_PIN) ;;;
          port_set CLOCK_PIN ;;; port_clear CLOCK_PIN) w tt
         [Drive DATA_PIN (Z.testbit b i); Drive CLOCK_PIN true; Drive CLOCK_PIN false].
Proof.
  intros Hi. rewrite land_bit_testbit by assumption.
  apply (drives_bind _ _ _ tt tt [_] [_; _]).
  - destruct (Z.testbit b i); [apply drives_port_set | apply drives_port_clear].
  - intros w1. apply (drives_bind _ _ _ tt tt [_] [_]).
    + apply drives_port_set.
    + intros w2. apply drives_port_clear.
Qed.

Lemma drives_show_leds (b0 b1 b2 b3 : Z) (w : World) :
  drives (show_leds [b0; b1; b2; b3]) w
         (sent [b0; b1; b2; b3]) (shown [b0; b1; b2; b3]).
Proof.
  unfold show_leds, shown.
  apply (drives_bind _ _ _ tt _ [_] _); [apply drives_emit_frame|]. intros w1.
  eapply drives_eq.
  - eapply (drives_bind _ _ _ 0); [|intros w2; apply drives_ret].
    unfold shift_out.
    eapply (drives_bind _ _ _ tt 0 [_]); [apply drives_port_clear|]. intros w2.
    eapply (drives_bind _ _ _ tt 0 [_]); [apply drives_port_clear|]. intros w3.
    eapply (drives_bind _ _ _ tt 0 _ [_]).
    + apply (drives_for_up _ _ (fun j => pulses (Z.testbit
               (byte_at (sent [b0; b1; b2; b3]) j)))).
      intros j Hj w4. apply drives_for_up. intros i Hi w5. apply drives_bit. lia.
    + intros w4. apply (drives_bind _ _ _ tt 0 [_] []); [apply drives_port_set|].
      intros w5. apply drives_ret.
  - rewrite app_nil_r. reflexivity.
Qed.

Lemma testbit_u8 (x k : Z) : 0 <= k < 8 -> Z.testbit (u8 x) k = Z.testbit x k.
Proof.
  intros Hk. unfold u8. change 256 with (2 ^ 8).
  apply Z.mod_pow2_bits_low. lia.
Qed.

Lemma pin_range (l : Line) : 0 <= pin l < 3.
Proof. destruct l; cbn; lia. Qed.

(** One write changes the bit of its line and no other. *)
Lemma testbit_port_after (p : Z) (l : Line) (b : bool) (k : Z) :
  0 <= k < 8 ->
  Z.testbit (port_after p (Drive l b)) k
  = if k =? pin l then b else Z.testbit p k.
Proof.
  intros Hk. pose proof (pin_range l) as Hl.
  destruct b; cbn [port_after]; rewrite testbit_u8, Z.shiftl_1_l by assumption.
  - rewrite Z.lor_spec, Z.pow2_bits_eqb by lia.
    destruct (Z.eqb_spec k (pin l)) as [->|Hne].
    + rewrite Z.eqb_refl. apply orb_true_r.
    + destruct (Z.eqb_spec (pin l) k); [lia | apply orb_false_r].
  - rewrite Z.land_spec, Z.lnot_spec, Z.pow2_bits_eqb by lia.
    destruct (Z.eqb_spec k (pin l)) as [->|Hne].
    + rewrite Z.eqb_refl. apply andb_false_r.
    + destruct (Z.eqb_spec (pin l) k); [lia | apply andb_true_r].
Qed.

Lemma line_eqb_pin (a b : Line) : line_eqb a b = (pin b =? pin a).
Proof. destruct a, b; reflexivity. Qed.

(** After a trace each line is at the level last driven on it, or where
    it was if the trace does not drive it. *)
Lemma level_after (l : Line) (t : list Obs) :
  forall p : Z,
  Z.testbit (fold_left port_after t p) (pin l)
  = match last_drive l t with
    | Some b => b
    | None => Z.testbit p (pin l)
    end.
Proof.
  pose proof (pin_range l) as Hl.
  induction t as [|o t IH]; intros p; [reflexivity|].
  cbn [fold_left last_drive]. rewrite IH.
  destruct (last_drive l t); [reflexivity|].
  destruct o as [l' b| |]; try reflexivity.
  rewrite testbit_port_after, line_eqb_pin by lia.
  destruct (pin l =? pin l'); reflexivity.
Qed.

(** The five bits of the port that are not one of the three lines stay. *)
Lemma other_bits_after (k : Z) (t : list Obs) :
  3 <= k < 8 ->
  forall p : Z, Z.testbit (fold_left port_after t p) k = Z.testbit p k.
Proof.
  intros Hk. induction t as [|o t IH]; intros p; [reflexivity|].
  cbn [fold_left]. rewrite IH.
  destruct o as [l b| |]; try reflexivity.
  rewrite testbit_port_after by lia. pose proof (pin_range l).
  destruct (Z.eqb_spec k (pin l)); [lia | reflexivity].
Qed.

(** X4. After a call of [show_leds], whatever the port held before: the
    port register is a byte, the latch line is high, the clock line is
    low, the data line holds the last bit shifted out (the complement of
    bit 7 of the blue byte), and bits 3 to 7 of the port, which belong to
    no line of the shift register, are as they were. *)
Theorem port_after_show_leds (row red green blue : Z) (w : World) :
  let p' := PORTC (snd (show_leds [row; red; green; blue] w)) in
  0 <= p' < 256 /\
  Z.testbit p' (pin LATCH_PIN) = true /\
  Z.testbit p' (pin CLOCK_PIN) = false /\
  Z.testbit p' (pin DATA_PIN) = negb (Z.testbit blue 7) /\
  (forall k, 3 <= k < 8 -> Z.testbit p' k = Z.testbit (PORTC w) k).
Proof.
  intros p'. subst p'. rewrite (drives_show_leds row red green blue w). cbn [snd PORTC].
  split; [|split; [|split; [|split]]].
  - change (shown [row; red; green; blue])
      with ((ShowLeds [row; red; green; blue] :: Drive LATCH_PIN false
             :: Drive CLOCK_PIN false
             :: flat_map (fun b => pulses (Z.testbit b)) (sent [row; red; green; blue]))
            ++ [Drive LATCH_PIN true]).
    rewrite fold_left_app. cbn [fold_left port_after]. apply u8_range.
  - rewrite level_after. reflexivity.
  - rewrite level_after. reflexivity.
  - rewrite level_after.
    change (last_drive DATA_PIN (shown [row; red; green; blue]))
      with (Some (Z.testbit (not8 blue) 7)).
    apply not8_testbit. lia.
  - intros k Hk. rewrite (drives_show_leds row red green blue w). cbn [snd PORTC].
    apply other_bits_after, Hk.
Qed.

(** X5. [shift_port_init] makes the three pins of the shift register
    outputs and drives them low, data first, then latch, then clock, and
    touches nothing else: bits 3 to 7 of the direction register and of
    the port stay as they were, and the shared variables are not
    touched. *)
Theorem shift_port_init_pins (DDRC : Z) (w : World) :
  let DDRC' := fst (shift_port_init DDRC w) in
  let w' := snd (shift_port_init DDRC w) in
  (forall l : Line, Z.testbit DDRC' (pin l) = true /\
                    Z.testbit (PORTC w') (pin l) = false) /\
  (forall k, 3 <= k < 8 ->
     Z.testbit DDRC' k = Z.testbit DDRC k /\
     Z.testbit (PORTC w') k = Z.testbit (PORTC w) k) /\
  0 <= DDRC' < 256 /\ 0 <= PORTC w' < 256 /\
  emitted (shift_port_init DDRC) w
  = [Drive DATA_PIN false; Drive LATCH_PIN false; Drive CLOCK_PIN false] /\
  regs w' = regs w.
Proof.
  intros DDRC' w'.
  assert (Hd : drives (shift_port_init DDRC) w
                 (fold_left port_after
                    [Drive DATA_PIN true; Drive LATCH_PIN true; Drive CLOCK_PIN true] DDRC)
                 [Drive DATA_PIN false; Drive LATCH_PIN false; Drive CLOCK_PIN false]).
  { unfold shift_port_init.
    apply (drives_bind _ _ _ tt _ [_] [_; _]); [apply drives_port_clear|]. intros w1.
    apply (drives_bind _ _ _ tt _ [_] [_]); [apply drives_port_clear|]. intros w2.
    apply (drives_bind _ _ _ tt _ [_] []); [apply drives_port_clear|]. intros w3.
    apply drives_ret. }
  subst DDRC' w'. unfold emitted.
  split; [|split; [|split; [|split; [|split]]]].
  - intros l. rewrite Hd. cbn [fst snd PORTC].
    rewrite !level_after. destruct l; split; reflexivity.
  - intros k Hk. rewrite Hd. cbn [fst snd PORTC].
    rewrite !other_bits_after by assumption. split; reflexivity.
  - rewrite Hd. cbn [fst fold_left port_after]. apply u8_range.
  - rewrite Hd. cbn [snd PORTC fold_left port_after]. apply u8_range.
  - rewrite Hd. cbn [snd trace]. apply drop_app_length.
  - rewrite Hd. reflexivity.
Qed.

(** *** What a shift register on the lines takes in *)

Lemma upto_In (n : nat) :
  forall from x : Z, from <= x < from + Z.of_nat n -> In x (upto n from).
Proof.
  induction n as [|n IH]; intros from x Hx; [lia|].
  cbn [upto In]. destruct (Z.eq_dec from x); [left; assumption|].
  right. apply IH. lia.
Qed.

(** Eight pulses give eight rising edges, each with its bit on the data
    line. *)
Lemma sampled_pulses (f : Z -> bool) (d : bool) (t : list Obs) :
  sampled d false (pulses f ++ t) = map f (upto 8 0) ++ sampled (f 7) false t.
Proof.
  unfold pulses. change (upto 8 0) with [0; 1; 2; 3; 4; 5; 6; 7].
  cbn [flat_map app sampled map]. reflexivity.
Qed.

Lemma bytes_of_bits_byte (n : nat) (f : Z -> bool) (rest : list bool) :
  bytes_of_bits (S n) (map f (upto 8 0) ++ rest)
  = byte_of_bits (map f (upto 8 0)) :: bytes_of_bits n rest.
Proof. reflexivity. Qed.

Lemma byte_of_bits_small (x : Z) :
  0 <= x < 256 -> byte_of_bits (map (Z.testbit x) (upto 8 0)) = x.
Proof.
  intros Hx.
  assert (Hall : forallb (fun x => byte_of_bits (map (Z.testbit x) (upto 8 0)) =? x)
                         (upto 256 0) = true) by (vm_compute; reflexivity).
  rewrite forallb_forall in Hall. apply Z.eqb_eq, Hall, upto_In. lia.
Qed.

Lemma byte_of_bits_testbit (x : Z) :
  byte_of_bits (map (Z.testbit x) (upto 8 0)) = u8 x.
Proof.
  rewrite <- (byte_of_bits_small (u8 x)) by apply u8_range.
  change (upto 8 0) with [0; 1; 2; 3; 4; 5; 6; 7]. cbn [map].
  rewrite !testbit_u8 by lia. reflexivity.
Qed.

(** X6. Reading the lines as a shift register does (the data line taken
    at each rising edge of the clock line), one call of [show_leds] gives
    exactly 32 bits, whatever the levels of the lines before the call,
    and these bits, cut into bytes least significant bit first, are the
    row byte followed by the 8-bit complements of red, green and blue:
    the array the call leaves behind. *)
Theorem show_leds_round_trip (row red green blue : Z) (w : World) (data clock : bool) :
  let t := emitted (show_leds [row; red; green; blue]) w in
  length (sampled data clock t) = 32%nat /\
  bytes_of_bits 4 (sampled data clock t) = [u8 row; not8 red; not8 green; not8 blue] /\
  (0 <= row < 256 ->
   bytes_of_bits 4 (sampled data clock t) = fst (show_leds [row; red; green; blue] w)).
Proof.
  intros t.
  destruct (writes_emitted _ w _ _ (writes_show_leds row red green blue w)) as [Hfst Ht].
  assert (Hs : sampled data clock t
               = map (Z.testbit row) (upto 8 0) ++ map (Z.testbit (not8 red)) (upto 8 0)
                 ++ map (Z.testbit (not8 green)) (upto 8 0)
                 ++ map (Z.testbit (not8 blue)) (upto 8 0) ++ []).
  { subst t. rewrite Ht. unfold shown, shifted. rewrite sent_four.
    cbn [app flat_map sampled]. rewrite <- !app_assoc.
    rewrite !sampled_pulses. reflexivity. }
  rewrite Hs. split; [reflexivity|].
  assert (Hb : bytes_of_bits 4
                 (map (Z.testbit row) (upto 8 0) ++ map (Z.testbit (not8 red)) (upto 8 0)
                  ++ map (Z.testbit (not8 green)) (upto 8 0)
                  ++ map (Z.testbit (not8 blue)) (upto 8 0) ++ [])
               = [u8 row; not8 red; not8 green; not8 blue]).
  { rewrite !bytes_of_bits_byte, !byte_of_bits_testbit.
    unfold not8. rewrite !(u8_small (u8 _)) by apply u8_range. reflexivity. }
  split; [exact Hb|].
  intros Hrow. rewrite Hb, Hfst, sent_four, u8_small by assumption. reflexivity.
Qed.

Lemma show_leds_round_trip_witness :
  bytes_of_bits 4 (sampled true true
    (emitted (show_leds [0x80; 0x10; 0xEF; 0x00])
             {| regs := boot; PORTC := 7; irqs := []; trace := [] |}))
  = fst (show_leds [0x80; 0x10; 0xEF; 0x00]
                   {| regs := boot; PORTC := 7; irqs := []; trace := [] |}).
Proof.
  refine (proj2 (proj2 (show_leds_round_trip 0x80 0x10 0xEF 0x00
            {| regs := boot; PORTC := 7; irqs := []; trace := [] |} true true)) _).
  lia.
Defined.

(** ** The main loop under any interrupts *)

Lemma sound_ret {A} (a : A) (Q : A -> Prop) : Q a -> sound (ret a) (eq 0%nat) Q.
Proof.
  intros Ha w. exists []. cbn. rewrite app_nil_r. repeat split; [constructor | exact Ha].
Qed.

Lemma sound_bind {A B} (m : M A) (f : A -> M B) (N1 N2 N : nat -> Prop)
    (P : A -> Prop) (Q : B -> Prop) :
  sound m N1 P ->
  (forall a, P a -> sound (f a) N2 Q) ->
  (forall n1 n2, N1 n1 -> N2 n2 -> N (n1 + n2)%nat) ->
  sound (bind m f) N Q.
Proof.
  intros Hm Hf HN w. unfold bind.
  destruct (Hm w) as (e1 & Ht1 & Hn1 & Hok1 & Ha).
  destruct (m w) as [a w1]. cbn [fst snd] in *.
  destruct (Hf a Ha w1) as (e2 & Ht2 & Hn2 & Hok2 & Hb).
  exists (e1 ++ e2). rewrite Ht2, Ht1, app_assoc, frames_app, length_app.
  repeat split; [apply HN; assumption | apply Forall_app; split; assumption | exact Hb].
Qed.

Lemma sound_weaken {A} (m : M A) (N N' : nat -> Prop) (Q : A -> Prop) :
  sound m N Q -> (forall n, N n -> N' n) -> sound m N' Q.
Proof.
  intros Hm HN w. destruct (Hm w) as (e & Ht & Hn & Hok & Hq).
  exists e. auto.
Qed.

Lemma sound_read_state : sound read_state (eq 0%nat) (fun _ => True).
Proof.
  intros w. exists []. cbn. rewrite app_nil_r. repeat split. constructor.
Qed.

Lemma sound_delay (ms : Z) : sound (_delay_ms ms) (eq 0%nat) (fun _ => True).
Proof. intros w. exists [Delay ms]. cbn. repeat split. constructor. Qed.

Lemma sound_show_leds (bytes : list Z) :
  four bytes -> frame_ok bytes -> sound (show_leds bytes) (eq 1%nat) four.
Proof.
  intros Hlen Hok w.
  destruct bytes as [|b0 [|b1 [|b2 [|b3 [|]]]]]; try discriminate.
  destruct (writes_show_leds b0 b1 b2 b3 w) as [p H].
  exists (shown [b0; b1; b2; b3]). rewrite H, frames_shown. cbn [fst snd trace length].
  repeat split. constructor; [exact Hok | constructor].
Qed.

Lemma one_bit_shift (k : Z) : 0 <= k <= 7 -> one_bit (u8 (Z.shiftl 1 k)).
Proof.
  intros Hk. exists k. split; [lia|].
  assert (Hcases : k = 0 \/ k = 1 \/ k = 2 \/ k = 3 \/ k = 4 \/ k = 5 \/ k = 6 \/ k = 7) by lia.
  repeat (destruct Hcases as [-> | Hcases]); try subst k; reflexivity.
Qed.

(** A scan frame as [scan_row] builds it is well formed whatever was
    stored as its row bit and its red byte. *)
Lemma scan_frame_ok (k red : Z) (l0 l1 l2 l3 : Z) :
  0 <= k <= 7 ->
  let leds := store 1 red (store 0 (Z.shiftl 1 k) [l0; l1; l2; l3]) in
  frame_ok (store 3 0x00 (store 2 (Z.lnot (byte_at leds 1)) leds)).
Proof.
  intros Hk leds. right. right. right.
  exists (u8 (Z.shiftl 1 k)), (u8 red).
  split; [apply one_bit_shift, Hk|]. split; [apply u8_range|].
  subst leds. cbn -[u8 Z.lnot Z.shiftl].
  change (byte_at [u8 (Z.shiftl 1 k); u8 red; l2; l3] 1) with (u8 red).
  change (u8 (Z.lnot (u8 red))) with (not8 (u8 red)).
  rewrite not8_small by apply u8_range. reflexivity.
Qed.

Lemma sound_scan_row (ar lr j : Z) (leds : list Z) :
  0 <= j <= 7 -> four leds -> sound (scan_row ar lr j leds) (eq 1%nat) four.
Proof.
  intros Hj Hlen.
  destruct leds as [|l0 [|l1 [|l2 [|l3 [|]]]]]; try discriminate.
  unfold scan_row.
  apply (sound_bind _ _ (eq 0%nat) (eq 1%nat) _ _ _ sound_read_state);
    [|intros ? ? <- <-; reflexivity]. intros s1 _.
  apply (sound_bind _ _ (eq 0%nat) (eq 1%nat) _ _ _ sound_read_state);
    [|intros ? ? <- <-; reflexivity]. intros s2 _.
  assert (H7 : 0 <= 7 - j <= 7) by lia.
  destruct (s1 <? 32); destruct (s2 <? 32);
    destruct (Z.eqb_spec j ar);
    try (apply sound_show_leds; [reflexivity | apply scan_frame_ok; assumption]);
    destruct (Z.ltb_spec j ar);
    try (apply sound_show_leds; [reflexivity | apply scan_frame_ok; assumption]);
    destruct (Z.gtb_spec j ar);
    try (apply sound_show_leds; [reflexivity | apply scan_frame_ok; assumption]);
    lia.
Qed.

Lemma sound_rows (ar lr : Z) (n : nat) :
  forall (from : Z) (leds : list Z),
  0 <= from -> from + Z.of_nat n <= 8 -> four leds ->
  sound (for_up_with n from (scan_row ar lr) leds) (eq n) four.
Proof.
  induction n as [|n IH]; intros from leds Hfrom Hn Hlen.
  - apply sound_ret, Hlen.
  - cbn [for_up_with].
    apply (sound_bind _ _ (eq 1%nat) (eq n) _ four _).
    + apply sound_scan_row; [lia | assumption].
    + intros leds' Hlen'. apply IH; [lia | lia | assumption].
    + intros ? ? <- <-. reflexivity.
Qed.

Lemma four_store (i : nat) (v : Z) (leds : list Z) : four leds -> four (store i v leds).
Proof. unfold four, store. rewrite length_insert. auto. Qed.

Lemma sound_loop_body (leds : list Z) :
  four leds ->
  sound (loop_body leds) (fun n => n = 1 \/ n = 2 \/ n = 8)%nat four.
Proof.
  intros Hlen. unfold loop_body.
  apply (sound_bind _ _ (eq 0%nat) (fun n => n = 1 \/ n = 2 \/ n = 8)%nat _ _ _
           sound_read_state); [|intros ? ? <- H; exact H]. intros s1 _.
  destruct (s1 =? 255).
  { rewrite store_four by assumption.
    eapply sound_weaken; [apply sound_show_leds; [reflexivity | left; reflexivity]|].
    intros n <-. left. reflexivity. }
  apply (sound_bind _ _ (eq 0%nat) (fun n => n = 1 \/ n = 2 \/ n = 8)%nat _ _ _
           sound_read_state); [|intros ? ? <- H; exact H]. intros s2 _.
  destruct (s2 >? 63).
  { rewrite store_four by assumption.
    apply (sound_bind _ _ (eq 1%nat) (eq 1%nat) _ four _).
    - apply sound_show_leds; [reflexivity | right; left; reflexivity].
    - intros leds1 Hlen1.
      apply (sound_bind _ _ (eq 0%nat) (eq 1%nat) _ _ _ (sound_delay 500));
        [|intros ? ? <- <-; reflexivity]. intros _ _.
      rewrite store_four by assumption.
      apply (sound_bind _ _ (eq 1%nat) (eq 0%nat) _ four _).
      + apply sound_show_leds; [reflexivity | right; right; left; reflexivity].
      + intros leds2 Hlen2.
        apply (sound_bind _ _ (eq 0%nat) (eq 0%nat) _ _ _ (sound_delay 500));
          [|intros ? ? <- <-; reflexivity]. intros _ _.
        apply sound_ret, Hlen2.
      + intros ? ? <- <-. reflexivity.
    - intros ? ? <- <-. right. left. reflexivity. }
  apply (sound_bind _ _ (eq 0%nat) (fun n => n = 1 \/ n = 2 \/ n = 8)%nat _ _ _
           sound_read_state); [|intros ? ? <- H; exact H]. intros s3 _.
  apply (sound_bind _ _ (eq 0%nat) (fun n => n = 1 \/ n = 2 \/ n = 8)%nat _ _ _
           sound_read_state); [|intros ? ? <- H; exact H]. intros s4 _.
  eapply sound_weaken; [apply sound_rows; [lia | lia | assumption]|].
  intros n <-. right. right. reflexivity.
Qed.

Lemma sound_main_loop (n : nat) :
  forall leds : list Z,
  four leds -> sound (main_loop n leds) (fun k => n <= k <= 8 * n)%nat four.
Proof.
  induction n as [|n IH]; intros leds Hlen.
  - eapply sound_weaken; [apply sound_ret, Hlen|]. intros k <-. lia.
  - cbn [main_loop].
    apply (sound_bind _ _ (fun k => k = 1 \/ k = 2 \/ k = 8)%nat
             (fun k => n <= k <= 8 * n)%nat _ four _).
    + apply sound_loop_body, Hlen.
    + intros leds' Hlen'. apply IH, Hlen'.
    + intros n1 n2 H1 H2. lia.
Qed.

Lemma sound_emitted {A} (m : M A) (N : nat -> Prop) (Q : A -> Prop) (w : World) :
  sound m N Q ->
  N (length (frames (emitted m w))) /\ Forall frame_ok (frames (emitted m w)).
Proof.
  intros Hm. destruct (Hm w) as (e & Ht & Hn & Hok & _).
  unfold emitted. rewrite Ht, drop_app_length. auto.
Qed.

(** X7. Whatever interrupts arrive and wherever they fall among the loads
    of [state], every frame the loop hands to [show_leds] is the waiting
    frame, one of the two overtime frames, or a scan frame of four bytes
    with exactly one row bit, green the 8-bit complement of red, and
    blue 0: two rows are never selected in one scan frame.  One iteration
    shows 1, 2 or 8 frames, and [n] iterations between [n] and [8 n]. *)
Theorem frames_always_well_formed (n : nat) (leds : list Z) (w : World) :
  length leds = 4%nat ->
  (Forall frame_ok (frames (emitted (loop_body leds) w)) /\
   (length (frames (emitted (loop_body leds) w)) = 1 \/
    length (frames (emitted (loop_body leds) w)) = 2 \/
    length (frames (emitted (loop_body leds) w)) = 8)%nat) /\
  (Forall frame_ok (frames (emitted (main_loop n leds) w)) /\
   (n <= length (frames (emitted (main_loop n leds) w)) <= 8 * n)%nat).
Proof.
  intros Hlen. split.
  - destruct (sound_emitted _ _ _ w (sound_loop_body leds Hlen)). auto.
  - destruct (sound_emitted _ _ _ w (sound_main_loop n leds Hlen)). auto.
Qed.

Lemma frames_always_well_formed_witness :
  Forall frame_ok (frames (emitted (loop_body [0; 0; 0; 0]) ticked_at_31)).
Proof.
  refine (proj1 (proj1 (frames_always_well_formed 1 [0; 0; 0; 0] ticked_at_31 _))).
  reflexivity.
Defined.

(** ** The picture of the countdown *)

Lemma quiet_scan_frames (leds : list Z) (w : World) :
  length leds = 4%nat -> quiet w -> 0 <= state (regs w) <= 63 ->
  frames (emitted (loop_body leds) w) = scan_leds (state (regs w)).
Proof.
  intros Hlen Hq Hs.
  destruct (steady_emitted _ w _ _ _ (steady_loop_body leds w Hlen Hq)) as [_ ->].
  rewrite pass_events_running by assumption. apply frames_scan.
Qed.

Lemma scan_counts (s : Z) :
  0 <= s <= 63 ->
  total (map (fun f => popcount8 (byte_at f 1)) (scan_leds s)) = s + 1 /\
  total (map (fun f => popcount8 (byte_at f 2)) (scan_leds s)) = 63 - s /\
  forallb (fun f => byte_at f 3 =? 0) (scan_leds s) = true.
Proof.
  intros Hs.
  assert (Hall : forallb (fun s =>
            (total (map (fun f => popcount8 (byte_at f 1)) (scan_leds s)) =? s + 1)
            && (total (map (fun f => popcount8 (byte_at f 2)) (scan_leds s)) =? 63 - s)
            && forallb (fun f => byte_at f 3 =? 0) (scan_leds s)) (upto 64 0) = true)
    by (vm_compute; reflexivity).
  rewrite forallb_forall in Hall. specialize (Hall s (upto_In 64 0 s ltac:(lia))).
  apply andb_true_iff in Hall as [Hall Hblue]. apply andb_true_iff in Hall as [Hred Hgreen].
  apply Z.eqb_eq in Hred, Hgreen. auto.
Qed.

Lemma scan_fills (s s' k : Z) :
  0 <= s <= s' -> s' <= 63 -> 0 <= k < 8 ->
  submask (red_of_row (scan_leds s) (2 ^ k)) (red_of_row (scan_leds s') (2 ^ k)) = true.
Proof.
  intros Hs Hs' Hk.
  assert (Hall : forallb (fun s => forallb (fun s' => forallb (fun k =>
            implb (s <=? s')
                  (submask (red_of_row (scan_leds s) (2 ^ k))
                           (red_of_row (scan_leds s') (2 ^ k))))
            (upto 8 0)) (upto 64 0)) (upto 64 0) = true)
    by (vm_compute; reflexivity).
  rewrite forallb_forall in Hall. specialize (Hall s (upto_In 64 0 s ltac:(lia))).
  rewrite forallb_forall in Hall. specialize (Hall s' (upto_In 64 0 s' ltac:(lia))).
  rewrite forallb_forall in Hall. specialize (Hall k (upto_In 8 0 k ltac:(lia))).
  destruct (Z.leb_spec s s'); [exact Hall | lia].
Qed.

(** X8. In an iteration at counter [s] from 0 to 63 during which no
    handler changes the shared variables, the eight frames together light
    exactly [s + 1] red and [63 - s] green LEDs, and no blue one: the
    matrix shows the counter as a bar of red on green. *)
Theorem countdown_bar (leds : list Z) (w : World) :
  length leds = 4%nat -> quiet w -> 0 <= state (regs w) <= 63 ->
  let fs := frames (emitted (loop_body leds) w) in
  total (map (fun f => popcount8 (byte_at f 1)) fs) = state (regs w) + 1 /\
  total (map (fun f => popcount8 (byte_at f 2)) fs) = 63 - state (regs w) /\
  Forall (fun f => byte_at f 3 = 0) fs.
Proof.
  intros Hlen Hq Hs fs. subst fs. rewrite quiet_scan_frames by assumption.
  destruct (scan_counts (state (regs w)) Hs) as (Hred & Hgreen & Hblue).
  repeat split; try assumption.
  apply List.Forall_forall. intros f Hf. rewrite forallb_forall in Hblue.
  apply Z.eqb_eq, Hblue, Hf.
Qed.

Lemma countdown_bar_witness :
  total (map (fun f => popcount8 (byte_at f 1))
             (frames (emitted (loop_body [0; 0; 0; 0]) calm_at_31)))
  = state (regs calm_at_31) + 1.
Proof.
  refine (proj1 (countdown_bar [0; 0; 0; 0] calm_at_31 _ _ _)).
  - reflexivity.
  - constructor.
  - change (0 <= 31 <= 63). lia.
Defined.

(** X9. Through the countdown a red LED stays red: take two iterations,
    each without a change of the shared variables, at counters
    [s <= s'] within 0..63; in the row selected by bit [k], every column
    that is red at [s] is red at [s'], also across counter 32, where the
    order of the rows and the side of the pattern change. *)
Theorem red_stays_red (leds leds' : list Z) (w w' : World) (k i : Z) :
  length leds = 4%nat -> length leds' = 4%nat -> quiet w -> quiet w' ->
  0 <= state (regs w) <= state (regs w') -> state (regs w') <= 63 ->
  0 <= k < 8 ->
  Z.testbit (red_of_row (frames (emitted (loop_body leds) w)) (2 ^ k)) i = true ->
  Z.testbit (red_of_row (frames (emitted (loop_body leds') w')) (2 ^ k)) i = true.
Proof.
  intros Hlen Hlen' Hq Hq' Hs Hs' Hk.
  rewrite !quiet_scan_frames by (assumption || lia).
  apply submask_testbit, scan_fills; assumption.
Qed.

Lemma red_stays_red_witness :
  Z.testbit (red_of_row (frames (emitted (loop_body [0; 0; 0; 0])
               {| regs := {| state := 40; enabled := 1; TCNT1 := 0 |};
                  PORTC := 0; irqs := []; trace := [] |})) (2 ^ 0)) 4 = true.
Proof.
  refine (red_stays_red [0; 0; 0; 0] [0; 0; 0; 0] calm_at_31
            {| regs := {| state := 40; enabled := 1; TCNT1 := 0 |};
               PORTC := 0; irqs := []; trace := [] |} 0 4 _ _ _ _ _ _ _ _).
  - reflexivity.
  - reflexivity.
  - constructor.
  - constructor.
  - change (0 <= 31 <= 40). lia.
  - cbn. lia.
  - lia.
  - vm_compute. reflexivity.
Defined.

(** ** The loop only reads the shared variables *)

Lemma observes_of_writes {A} (m : M A) :
  (forall w, exists a evs, writes m w a evs) -> observes m (eq 0%nat).
Proof.
  intros Hm w. destruct (Hm w) as (a & evs & p & H).
  exists 0%nat. rewrite H. cbn. rewrite drop_0. auto.
Qed.

Lemma observes_ret {A} (a : A) : observes (ret a) (eq 0%nat).
Proof. apply observes_of_writes. intros w. exists a, []. apply writes_ret. Qed.

Lemma observes_bind {A B} (m : M A) (f : A -> M B) (K1 K2 K : nat -> Prop) :
  observes m K1 ->
  (forall a, observes (f a) K2) ->
  (forall k1 k2, K1 k1 -> K2 k2 -> K (k1 + k2)%nat) ->
  observes (bind m f) K.
Proof.
  intros Hm Hf HK w. unfold bind.
  destruct (Hm w) as (k1 & Hk1 & Hr1 & Hi1).
  destruct (m w) as [a w1]. cbn [snd] in *.
  destruct (Hf a w1) as (k2 & Hk2 & Hr2 & Hi2).
  exists (k1 + k2)%nat. split; [apply HK; assumption|]. split.
  - rewrite Hr2, Hr1, Hi1, <- run_app, <- concat_app, take_take_drop. reflexivity.
  - rewrite Hi2, Hi1. apply drop_drop.
Qed.

Lemma observes_weaken {A} (m : M A) (K K' : nat -> Prop) :
  observes m K -> (forall k, K k -> K' k) -> observes m K'.
Proof.
  intros Hm HK w. destruct (Hm w) as (k & Hk & H). exists k. auto.
Qed.

Lemma observes_read_state : observes read_state (eq 1%nat).
Proof.
  intros w. exists 1%nat. split; [reflexivity|]. unfold read_state. cbn [snd regs irqs].
  destruct (irqs w) as [|g l]; cbn; [auto|]. rewrite app_nil_r. auto.
Qed.

Lemma observes_delay (ms : Z) : observes (_delay_ms ms) (eq 0%nat).
Proof.
  apply observes_of_writes. intros w. exists tt, [Delay ms]. apply writes_emit.
Qed.

(** [show_leds] reads no shared variable, whatever array it is given. *)
Lemma observes_show_leds (bytes : list Z) : observes (show_leds bytes) (eq 0%nat).
Proof.
  apply observes_of_writes. intros w. eexists _, _.
  unfold show_leds.
  eapply (writes_bind _ _ _ tt); [apply writes_emit|]. intros w1.
  eapply (writes_bind _ _ _ 0); [|intros w2; apply writes_ret].
  unfold shift_out.
  eapply (writes_bind _ _ _ tt 0); [apply writes_port_clear|]. intros w2.
  eapply (writes_bind _ _ _ tt 0); [apply writes_port_clear|]. intros w3.
  eapply (writes_bind _ _ _ tt 0).
  - apply (writes_for_up _ _ (fun j => pulses (Z.testbit
             (byte_at (negate_at 3 (negate_at 2 (negate_at 1 bytes))) j)))).
    intros j Hj w4. apply writes_for_up. intros i Hi w5. apply writes_bit. lia.
  - intros w4. eapply (writes_bind _ _ _ tt 0); [apply writes_port_set|].
    intros w5. apply writes_ret.
Qed.

Lemma observes_scan_row (ar lr j : Z) (leds : list Z) :
  observes (scan_row ar lr j leds) (eq 2%nat).
Proof.
  unfold scan_row.
  apply (observes_bind _ _ (eq 1%nat) (eq 1%nat) _ observes_read_state);
    [|intros ? ? <- <-; reflexivity]. intros s1.
  apply (observes_bind _ _ (eq 1%nat) (eq 0%nat) _ observes_read_state);
    [|intros ? ? <- <-; reflexivity]. intros s2.
  apply observes_show_leds.
Qed.

Lemma observes_rows (ar lr : Z) (n : nat) :
  forall (from : Z) (leds : list Z),
  observes (for_up_with n from (scan_row ar lr) leds) (eq (2 * n)%nat).
Proof.
  induction n as [|n IH]; intros from leds.
  - apply observes_ret.
  - cbn [for_up_with].
    apply (observes_bind _ _ (eq 2%nat) (eq (2 * n)%nat) _ (observes_scan_row _ _ _ _)).
    + intros leds'. apply IH.
    + intros ? ? <- <-. lia.
Qed.

Lemma observes_loop_body (leds : list Z) :
  observes (loop_body leds) (fun k => k = 1 \/ k = 2 \/ k = 20)%nat.
Proof.
  unfold loop_body.
  apply (observes_bind _ _ (eq 1%nat) (fun k => k = 0 \/ k = 1 \/ k = 19)%nat _
           observes_read_state); [|intros ? ? <- H; lia]. intros s1.
  destruct (s1 =? 255).
  { eapply observes_weaken; [apply observes_show_leds|]. intros k <-. lia. }
  apply (observes_bind _ _ (eq 1%nat) (fun k => k = 0 \/ k = 18)%nat _
           observes_read_state); [|intros ? ? <- H; lia]. intros s2.
  destruct (s2 >? 63).
  { eapply observes_weaken; [|intros k Hk; left; symmetry; exact Hk].
    apply (observes_bind _ _ (eq 0%nat) (eq 0%nat) _ (observes_show_leds _));
      [|intros ? ? <- <-; reflexivity]. intros leds1.
    apply (observes_bind _ _ (eq 0%nat) (eq 0%nat) _ (observes_delay 500));
      [|intros ? ? <- <-; reflexivity]. intros _.
    apply (observes_bind _ _ (eq 0%nat) (eq 0%nat) _ (observes_show_leds _));
      [|intros ? ? <- <-; reflexivity]. intros leds2.
    apply (observes_bind _ _ (eq 0%nat) (eq 0%nat) _ (observes_delay 500));
      [|intros ? ? <- <-; reflexivity]. intros _.
    apply observes_ret. }
  eapply observes_weaken; [|intros k Hk; right; symmetry; exact Hk].
  apply (observes_bind _ _ (eq 1%nat) (eq 17%nat) _ observes_read_state);
    [|intros ? ? <- <-; reflexivity]. intros s3.
  apply (observes_bind _ _ (eq 1%nat) (eq 16%nat) _ observes_read_state);
    [|intros ? ? <- <-; reflexivity]. intros s4.
  apply (observes_rows _ _ 8).
Qed.

Lemma observes_main_loop (n : nat) :
  forall leds : list Z,
  observes (main_loop n leds) (fun k => n <= k <= 20 * n)%nat.
Proof.
  induction n as [|n IH]; intros leds.
  - eapply observes_weaken; [apply observes_ret|]. intros k <-. lia.
  - cbn [main_loop].
    apply (observes_bind _ _ (fun k => k = 1 \/ k = 2 \/ k = 20)%nat
             (fun k => n <= k <= 20 * n)%nat _ (observes_loop_body leds)).
    + intros leds'. apply IH.
    + intros k1 k2 H1 H2. lia.
Qed.

(** X10. The loop never writes a shared variable: whatever interrupts
    arrive, after one iteration the shared variables are exactly what the
    handlers that ran before its loads of [state] made them, in the order
    they ran, and an iteration performs 1, 2 or 20 loads, never another
    number; [n] iterations perform between [n] and [20 n].  With no
    interrupt at all the shared variables are unchanged. *)
Theorem loop_only_reads_shared (n : nat) (leds : list Z) (w : World) :
  (exists k : nat,
     (k = 1 \/ k = 2 \/ k = 20)%nat /\
     regs (snd (loop_body leds w)) = run (concat (take k (irqs w))) (regs w) /\
     irqs (snd (loop_body leds w)) = drop k (irqs w)) /\
  (exists k : nat,
     (n <= k <= 20 * n)%nat /\
     regs (snd (main_loop n leds w)) = run (concat (take k (irqs w))) (regs w) /\
     irqs (snd (main_loop n leds w)) = drop k (irqs w)) /\
  (irqs w = [] -> regs (snd (main_loop n leds w)) = regs w).
Proof.
  split; [apply observes_loop_body|].
  split; [apply observes_main_loop|].
  intros Hnone. destruct (observes_main_loop n leds w) as (k & _ & Hr & _).
  rewrite Hr, Hnone, take_nil. reflexivity.
Qed.

Lemma loop_only_reads_shared_witness :
  regs (snd (main_loop 3 [0; 0; 0; 0] calm_at_31)) = regs calm_at_31.
Proof.
  refine (proj2 (proj2 (loop_only_reads_shared 3 [0; 0; 0; 0] calm_at_31)) _).
  reflexivity.
Defined.

(** ** Two presses in a row *)

(** X11. Two changes of the pin that both read as pressed, with nothing
    in between (a bouncing contact): while waiting they cancel each
    other, leaving the counter at 255 and the countdown stopped (only the
    timer count has been zeroed); in any other state they restart the
    countdown at counter 0, running, with the timer count zeroed, so a
    running countdown is not stopped but started again. *)
Theorem double_press (p1 p2 : Z) (r : Regs) :
  pressed p1 = true -> pressed p2 = true ->
  (state r = 255 ->
   run [PinChange p1; PinChange p2] r
   = {| state := 255; enabled := 0; TCNT1 := 0 |}) /\
  (state r <> 255 ->
   run [PinChange p1; PinChange p2] r
   = {| state := 0; enabled := 1; TCNT1 := 0 |}).
Proof.
  intros H1 H2. unfold pressed in H1, H2.
  cbn [run fold_left fire]. unfold ISR_PCINT0_vect. rewrite H1, H2.
  split; intros Hs.
  - apply Z.eqb_eq in Hs. rewrite Hs. reflexivity.
  - apply Z.eqb_neq in Hs. rewrite Hs. reflexivity.
Qed.

Lemma double_press_witness :
  run [PinChange 128; PinChange 255] {| state := 17; enabled := 1; TCNT1 := 9 |}
  = {| state := 0; enabled := 1; TCNT1 := 0 |}.
Proof.
  refine (proj2 (double_press 128 255 {| state := 17; enabled := 1; TCNT1 := 9 |} _ _) _).
  - reflexivity.
  - reflexivity.
  - cbn. lia.
Defined.
